(** * The video generation workflow of the gallery application

    A shallow embedding of [src/App.tsx] (the [generateVideo] pipeline, the
    [App] component's state and handlers, its render function) and of the
    generation form of [src/components/VideoGrid.tsx] (the
    [GenerateVideoPage] component), followed by the properties the
    specification states about them.

    JavaScript strings are modelled as [string]; one character stands for
    one code unit, so the model covers the code units below 256. *)

From stdpp Require Import gmap strings list fin_maps pretty.
From Stdlib Require Import Strings.Ascii Strings.Byte NArith.

#[local] Set Warnings "-register-all".

(** ** The parts of the JavaScript runtime the program relies on *)

Module Js.

(** The double quote character, for template literals that contain one. *)
Definition dquote : string := String (ascii_of_nat 34) EmptyString.

(** [undefined] is modelled by [None]; a template literal renders it as the
    nine letters of its name. *)
Definition template (v : option string) : string := default "undefined" v.

(** Truthiness of a string and of an optional boolean field. *)
Definition truthy_string (s : string) : bool :=
  match s with EmptyString => false | String _ _ => true end.

Definition truthy_flag (b : option bool) : bool := default false b.

(** White space as [String.prototype.trim] sees it, among the code units
    below 256: TAB, LF, VT, FF, CR, SPACE and NO-BREAK SPACE. *)
Definition isWhiteSpace (c : ascii) : bool :=
  bool_decide (nat_of_ascii c ∈ [9; 10; 11; 12; 13; 32; 160]).

Fixpoint trimStart (s : string) : string :=
  match s with
  | EmptyString => EmptyString
  | String c r => if isWhiteSpace c then trimStart r else s
  end.

Definition trimEnd (s : string) : string :=
  String.rev (trimStart (String.rev s)).

Definition trim (s : string) : string := trimEnd (trimStart s).

(** [s.split(sep)] for a separator of one code unit: the pieces between the
    separators, in order; a string without separator is its only piece. *)
Fixpoint split (sep : ascii) (s : string) : list string :=
  match s with
  | EmptyString => [EmptyString]
  | String c r =>
      if bool_decide (c = sep) then EmptyString :: split sep r
      else match split sep r with
           | piece :: pieces => String c piece :: pieces
           | [] => [String c EmptyString]
           end
  end.

(** [s.substring(0, n)] and [s.length]. *)
Definition substring0 (n : nat) (s : string) : string := String.substring 0 n s.

(** [s.includes(t)]. *)
Fixpoint includes (t s : string) : bool :=
  String.prefix t s ||
  match s with
  | EmptyString => false
  | String _ r => includes t r
  end.

(** What a [throw] or a rejected promise carries. [Error] is the program's
    own [new Error(message)]; [TypeError] and [URIError] come from the
    runtime; [Rejection] is a failure reported by a collaborator (the
    generation service or the network), whose content the program never
    looks at. *)
Inductive Exception :=
| Error (message : string)
| TypeError (message : string)
| URIError (message : string)
| Rejection (reason : string).

#[global] Instance Exception_eq_dec : EqDecision Exception.
Proof. solve_decision. Defined.

(** Values of the object literals the program builds. *)
Inductive Value :=
| Str (s : string)
| Num (n : nat)
| Obj (fields : gmap string Value).

(** Object spread [{...src}] onto the properties written so far: spreading
    [null] adds nothing, spreading an object copies its properties (a later
    property wins). *)
Definition spread (src : option (gmap string Value))
    (sofar : gmap string Value) : gmap string Value :=
  match src with
  | None => sofar
  | Some o => o ∪ sofar
  end.

(** ** Base64, as [FileReader.readAsDataURL] writes the payload (RFC 4648) *)

Definition base64_alphabet : list ascii :=
  String.list_ascii_of_string
    "ABCDEFGHIJKLMNOPQRSTUVWXYZabcdefghijklmnopqrstuvwxyz0123456789+/".

Definition base64_digit (n : N) : ascii :=
  nth (N.to_nat (n mod 64)) base64_alphabet "A"%char.

Definition pad : ascii := "="%char.

Fixpoint base64 (bytes : list byte) : string :=
  match bytes with
  | [] => EmptyString
  | [a] =>
      let x := Byte.to_N a in
      String (base64_digit (N.shiftr x 2))
        (String (base64_digit (N.shiftl (N.land x 3) 4))
           (String pad (String pad EmptyString)))
  | [a; b] =>
      let x := Byte.to_N a in
      let y := Byte.to_N b in
      String (base64_digit (N.shiftr x 2))
        (String (base64_digit (N.lor (N.shiftl (N.land x 3) 4) (N.shiftr y 4)))
           (String (base64_digit (N.shiftl (N.land y 15) 2))
              (String pad EmptyString)))
  | a :: b :: c :: rest =>
      let x := Byte.to_N a in
      let y := Byte.to_N b in
      let z := Byte.to_N c in
      String (base64_digit (N.shiftr x 2))
        (String (base64_digit (N.lor (N.shiftl (N.land x 3) 4) (N.shiftr y 4)))
           (String (base64_digit (N.lor (N.shiftl (N.land y 15) 2) (N.shiftr z 6)))
              (String (base64_digit (N.land z 63)) (base64 rest))))
  end.

End Js.

(** ** Data model *)

(** A gallery entry ([Video] of [./types]). *)
Record Video := {
  id : string;
  title : string;
  description : string;
  videoUrl : string
}.

#[global] Instance Video_eq_dec : EqDecision Video.
Proof. solve_decision. Defined.

(** The aspect ratio type ['16:9' | '9:16'] and the string it stands for. *)
Inductive AspectRatio := Landscape | Portrait.

Definition aspectRatio_string (aspectRatio : AspectRatio) : string :=
  match aspectRatio with
  | Landscape => "16:9"
  | Portrait => "9:16"
  end.

(** The optional reference image handed to the pipeline. *)
Record Image := {
  base64 : string;
  mimeType : string
}.

(** The state of the [App] component: one field per [useState]. *)
Record AppState := {
  videos : list Video;
  playingVideo : option Video;
  editingVideo : option Video;
  isGeneratingNewVideo : bool;
  isSaving : bool;
  savingMessage : string;
  generationError : option (list string)
}.

(** What the generation service answers (the SDK's [GenerateVideosOperation]
    and the types below it; every field is optional there). *)
Record VideoFile := { uri : option string }.
Record GeneratedVideo := { video : option VideoFile }.
Record GenerateVideosResponse := {
  generatedVideos : option (list GeneratedVideo)
}.
Record Operation := {
  name : string;
  done : option bool;
  response : option GenerateVideosResponse
}.

(** An instant of the event loop: the task, and the turn of the microtask
    queue within the task. The jobs of one turn run in the order they were
    queued in, which for the promises below is the order of the calls that
    made them; the promises that the world settles in one task are settled
    in the order of the calls, too. *)
Record Instant := {
  task : nat;
  tick : nat
}.

Definition earlier (a b : Instant) : bool :=
  bool_decide (task a < task b)
  || bool_decide (task a = task b) && bool_decide (tick a < tick b).

(** The instant that lies [delay] after [start]: a delay within the task
    adds turns, a delay of tasks starts at the turn it names. *)
Definition after (start delay : Instant) : Instant :=
  match task delay with
  | 0 => {| task := task start; tick := tick start + tick delay |}
  | S _ => {| task := task start + task delay; tick := tick delay |}
  end.

(** The instant a computation that [await]s a promise settled at [i] goes
    on at: one turn later. *)
Definition resumed (i : Instant) : Instant :=
  {| task := task i; tick := S (tick i) |}.

(** A settled promise: the instant it settles at, counted from the call
    that returned it (a promise that was settled when the call returned
    settles at task 0, turn 0), and whether it was fulfilled or rejected.
    Only [Promise.all] looks at the instant. *)
Record Promise (A : Type) := {
  settled_at : Instant;
  state : Js.Exception + A
}.
Arguments settled_at {A} _.
Arguments state {A} _.

(** What the network answers to [fetch]; [blob] is the promise that
    [res.blob()] returns. *)
Record Blob := {
  blob_type : string;
  blob_bytes : list byte
}.
Record Response := {
  ok : bool;
  status : nat;
  statusText : string;
  blob : Promise Blob
}.

(** The external calls the program makes. *)
Inductive Event :=
| Submitted (params : gmap string Js.Value)
| Waited (ms : N)
| Queried (operation : Operation)
| Fetched (url : string)
| DrewUUID.

Definition is_Submitted (e : Event) : bool :=
  match e with Submitted _ => true | _ => false end.
Definition is_Queried (e : Event) : bool :=
  match e with Queried _ => true | _ => false end.
Definition is_Fetched (e : Event) : bool :=
  match e with Fetched _ => true | _ => false end.
Definition is_DrewUUID (e : Event) : bool :=
  match e with DrewUUID => true | _ => false end.

(** How many events of one kind a log holds. *)
Definition count (kind : Event -> bool) (log : list Event) : nat :=
  length (filter (λ e, kind e = true) log).
Arguments count : simpl never.

(** The collaborators: the build-time credential, the runtime's URI decoder,
    the generation service (its answer to the n-th submission and to the
    n-th status query), the network and the source of identifiers. The
    program is verified against every such world. *)
Record World := {
  API_KEY : option string;
  decodeURIComponent : string -> Js.Exception + string;
  generateVideos : nat -> gmap string Js.Value -> Js.Exception + Operation;
  getVideosOperation : nat -> Operation -> Js.Exception + Operation;
  fetch : string -> Promise Response;
  randomUUID : nat -> string
}.

(** ** Asynchronous computations *)

(** What the program has done so far: the component state it has set and
    the external calls it has made (the newest first). *)
Record Store := {
  ui : AppState;
  log : list Event
}.

(** How a computation stands: it returned, it threw, or it is still waiting
    (the polling loop has not seen the end of the job within the number of
    status queries the run was given). *)
Inductive Completion (A : Type) :=
| Normal (a : A)
| Throw (e : Js.Exception)
| Pending.
Arguments Normal {A} a.
Arguments Throw {A} e.
Arguments Pending {A}.

Definition Async (A : Type) : Type := Store -> Completion A * Store.

#[global] Instance Async_ret : MRet Async := λ A a st, (Normal a, st).

#[global] Instance Async_bind : MBind Async := λ A B k m st,
  match m st with
  | (Normal a, st') => k a st'
  | (Throw e, st') => (Throw e, st')
  | (Pending, st') => (Pending, st')
  end.

Definition throw {A} (e : Js.Exception) : Async A := λ st, (Throw e, st).

Definition pending {A} : Async A := λ st, (Pending, st).

(** [await] of a promise that has settled. *)
Definition await {A} (p : Js.Exception + A) : Async A :=
  match p with
  | inl e => throw e
  | inr a => mret a
  end.

Definition emit (e : Event) : Async unit :=
  λ st, (Normal tt, {| ui := ui st; log := e :: log st |}).

Definition calls_so_far (kind : Event -> bool) : Async nat :=
  λ st, (Normal (count kind (log st)), st).

Definition update (f : AppState -> AppState) : Async unit :=
  λ st, (Normal tt, {| ui := f (ui st); log := log st |}).

(** [try { body } catch (error) { handler }]: the handler runs on what the
    body throws. *)
Definition try_catch {A} (body : Async A) (handler : Js.Exception -> Async A)
    : Async A :=
  λ st,
    match body st with
    | (Throw e, st') => handler e st'
    | outcome => outcome
    end.

(** [try { body } finally { cleanup }]: the cleanup runs however the body
    ends, and the body's completion stands unless the cleanup throws. A
    computation that is still waiting has not reached its cleanup. *)
Definition try_finally {A} (body : Async A) (cleanup : Async unit) : Async A :=
  λ st,
    match body st with
    | (Pending, st') => (Pending, st')
    | (completion, st') =>
        match cleanup st' with
        | (Normal tt, st'') => (completion, st'')
        | (Throw e, st'') => (Throw e, st'')
        | (Pending, st'') => (Pending, st'')
        end
    end.

(** [try { body } catch (error) { handler } finally { cleanup }]. *)
Definition try_catch_finally {A} (body : Async A)
    (handler : Js.Exception -> Async A) (cleanup : Async unit) : Async A :=
  try_finally (try_catch body handler) cleanup.

(** ** [src/App.tsx]: the generation pipeline *)

Definition VEO_MODEL_NAME : string := "veo-2.0-generate-001".

(** [reader.readAsDataURL(blob)]: the media type the reader writes for the
    blob ([blob_type]), the marker of the encoding, a comma, the payload.
    The blob is in memory, so the reader always answers. *)
Definition readAsDataURL (blob : Blob) : string :=
  "data:" +:+ blob_type blob +:+ ";base64," +:+ Js.base64 (blob_bytes blob).

(** [bloblToBase64]: the promise is fulfilled with [url.split(',')[1]]. *)
Definition bloblToBase64 (blob : Blob) : option string :=
  Js.split "," (readAsDataURL blob) !! 1.

(** [Promise.all]: fulfilled with all the values, in the order of the
    promises, when every promise is fulfilled; otherwise rejected with the
    reason of the promise that is rejected first: the reaction of
    [Promise.all] to a rejection runs one turn after it, and of two
    promises that are rejected at the same instant, the one that comes
    first in the list was rejected by the job that was queued first. *)
Fixpoint first_rejection {A} (promises : list (Promise A))
    : option (Instant * Js.Exception) :=
  match promises with
  | [] => None
  | p :: rest =>
      match state p, first_rejection rest with
      | inr _, later => later
      | inl e, None => Some (settled_at p, e)
      | inl e, Some (t, e') =>
          if earlier t (settled_at p) then Some (t, e')
          else Some (settled_at p, e)
      end
  end.

Definition fulfilled {A} (p : Promise A) : option A :=
  match state p with
  | inl _ => None
  | inr a => Some a
  end.

Definition Promise_all {A} (promises : list (Promise A)) : Js.Exception + list A :=
  match first_rejection promises with
  | Some (_, e) => inl e
  | None => inr (omap fulfilled promises)
  end.

(** The properties of the argument of [ai.models.generateVideos]. *)
Definition generateVideos_params (prompt : string) (aspectRatio : AspectRatio)
    (image : option Image) (numberOfVideos : nat) : gmap string Js.Value :=
  <["config" := Js.Obj
      (<["aspectRatio" := Js.Str (aspectRatio_string aspectRatio)]>
         {["numberOfVideos" := Js.Num numberOfVideos]})]>
    (Js.spread
       ((λ image : Image,
           {["image" := Js.Obj
               (<["mimeType" := Js.Str (mimeType image)]>
                  {["imageBytes" := Js.Str (base64 image)]})]}) <$> image)
       (<["prompt" := Js.Str prompt]> {["model" := Js.Str VEO_MODEL_NAME]})).

Section Pipeline.
Context (w : World).

Definition ai_models_generateVideos (params : gmap string Js.Value)
    : Async Operation :=
  n ← calls_so_far is_Submitted;
  emit (Submitted params);;
  await (generateVideos w n params).

Definition ai_operations_getVideosOperation (operation : Operation)
    : Async Operation :=
  n ← calls_so_far is_Queried;
  emit (Queried operation);;
  await (getVideosOperation w n operation).

Definition setTimeout (ms : N) : Async unit := emit (Waited ms).

Definition crypto_randomUUID : Async string :=
  n ← calls_so_far is_DrewUUID;
  emit DrewUUID;;
  mret (randomUUID w n).

(** The loop [while (!operation.done) { ... }] of [generateVideo]; [fuel]
    bounds the number of status queries of the run. *)
Fixpoint while_not_done (fuel : nat) (operation : Operation) {struct fuel}
    : Async Operation :=
  if Js.truthy_flag (done operation) then mret operation
  else
    match fuel with
    | 0 => pending
    | S fuel' =>
        setTimeout 10000%N;;
        operation' ← ai_operations_getVideosOperation operation;
        while_not_done fuel' operation'
    end.

(** The callback of [videos.map] in [generateVideo], in three parts.
    [request_url] is the argument of [fetch]: a property access on a
    missing [video] and a malformed URI throw before any request is made,
    and the promise of the callback is rejected when [map] has it.
    [read_response] is what the callback does with the answer to its
    request, which decides how and when its promise settles: the callback
    goes on one turn after the answer, where it throws on an answer that
    was rejected or is not [ok]; otherwise it calls [res.blob()] there and
    goes on one turn after that promise has settled. A promise of the
    callback that is fulfilled is so once the reader has loaded, in a task
    after that. [download] is the callback as [map] runs it: up to its
    call of [fetch]. *)
Definition request_url (generatedVideo : GeneratedVideo)
    : Js.Exception + string :=
  match video generatedVideo with
  | None => inl (Js.TypeError "generatedVideo.video is undefined")
  | Some file =>
      match decodeURIComponent w (Js.template (uri file)) with
      | inl e => inl e
      | inr url => inr (url +:+ "&key=" +:+ Js.template (API_KEY w))
      end
  end.

Definition read_response (answer : Promise Response)
    : Promise (option string) :=
  {| settled_at :=
       let answered := resumed (settled_at answer) in
       match state answer with
       | inl _ => answered
       | inr res =>
           if negb (ok res) then answered
           else
             let read := resumed (after answered (settled_at (blob res))) in
             match state (blob res) with
             | inl _ => read
             | inr _ => {| task := S (task read); tick := 0 |}
             end
       end;
     state :=
       match state answer with
       | inl e => inl e
       | inr res =>
           if negb (ok res) then
             inl (Js.Error ("Failed to fetch video: " +:+ pretty (status res)
                            +:+ " " +:+ statusText res))
           else
             match state (blob res) with
             | inl e => inl e
             | inr blob => inr (bloblToBase64 blob)
             end
       end |}.

Definition download (generatedVideo : GeneratedVideo)
    : Async (Promise (option string)) :=
  match request_url generatedVideo with
  | inl e => mret {| settled_at := {| task := 0; tick := 0 |};
                     state := inl e |}
  | inr request =>
      emit (Fetched request);;
      mret (read_response (fetch w request))
  end.

(** The block [if (operation?.response) { ... } else { ... }] that ends
    [generateVideo]. *)
Definition collect (operation : Operation) : Async (list (option string)) :=
  match response operation with
  | Some response =>
      match generatedVideos response with
      | None | Some [] => throw (Js.Error "No videos generated")
      | Some videos =>
          promises ← mapM download videos;
          await (Promise_all promises)
      end
  | None => throw (Js.Error "No videos generated")
  end.

Definition generateVideo (fuel : nat) (prompt : string)
    (aspectRatio : AspectRatio) (image : option Image) (numberOfVideos : nat)
    : Async (list (option string)) :=
  operation ← ai_models_generateVideos
                (generateVideos_params prompt aspectRatio image numberOfVideos);
  operation ← while_not_done fuel operation;
  collect operation.

End Pipeline.

(** ** [src/components/VideoGrid.tsx]: the generation form *)

Module GenerateVideoPage.

(** The image the form holds: what the pipeline needs and the preview. *)
Record FormImage := {
  base64 : string;
  mimeType : string;
  dataUrl : string
}.

(** The state of the form: one field per [useState]. *)
Record FormState := {
  prompt : string;
  aspectRatio : AspectRatio;
  image : option FormImage
}.

(** [handleGenerate], for the [onGenerate] the form was given. *)
Definition handleGenerate
    (onGenerate : string -> AspectRatio -> option Image -> Async unit)
    (form : FormState) : Async unit :=
  if Js.truthy_string (Js.trim (prompt form)) then
    onGenerate (prompt form) (aspectRatio form)
      ((λ image, Build_Image (base64 image) (mimeType image)) <$> image form)
  else mret tt.

(** The [disabled] attribute of the button that calls [handleGenerate]. *)
Definition generate_disabled (form : FormState) : bool :=
  negb (Js.truthy_string (Js.trim (prompt form))).

(** The form as it is mounted. *)
Definition initial : FormState :=
  {| prompt := EmptyString; aspectRatio := Landscape; image := None |}.

(** The setters of the form state. *)
Definition setPrompt (value : string) (form : FormState) : FormState :=
  {| prompt := value; aspectRatio := aspectRatio form; image := image form |}.

Definition setAspectRatio (value : AspectRatio) (form : FormState)
    : FormState :=
  {| prompt := prompt form; aspectRatio := value; image := image form |}.

Definition setImage (value : option FormImage) (form : FormState)
    : FormState :=
  {| prompt := prompt form; aspectRatio := aspectRatio form; image := value |}.

(** A file of the file input: its [type] and what the reader reads. *)
Record File := {
  file_type : string;
  file_content : Blob
}.

(** [handleImageChange], for [file = event.target.files?.[0]], once the
    reader has called [onload]. The source takes [dataUrl.split(',')[1]]
    for a string; the model has no form state for an [undefined] there and
    leaves the form alone in that case, which no file leads to (see
    [data_url_has_payload]). *)
Definition handleImageChange (file : option File) (form : FormState)
    : FormState :=
  match file with
  | Some file =>
      let dataUrl := readAsDataURL (file_content file) in
      match Js.split "," dataUrl !! 1 with
      | Some base64 =>
          setImage (Some {| base64 := base64;
                            mimeType := file_type file;
                            dataUrl := dataUrl |}) form
      | None => form
      end
  | None => form
  end.

(** What the user does on the form: typing in the prompt, one of the two
    aspect ratio buttons, the file input, the button that removes the
    image. *)
Inductive Edit :=
| TypePrompt (value : string)
| ChooseAspectRatio (value : AspectRatio)
| ChooseFile (file : option File)
| RemoveImage.

Definition edit (e : Edit) (form : FormState) : FormState :=
  match e with
  | TypePrompt value => setPrompt value form
  | ChooseAspectRatio value => setAspectRatio value form
  | ChooseFile file => handleImageChange file form
  | RemoveImage => setImage None form
  end.

End GenerateVideoPage.

(** ** [src/components/VideoGrid.tsx]: the grid *)

Module VideoGrid.

(** What [VideoGrid] returns: the placeholder, or one [VideoCard] per
    video, each with its [key] and its [video]. *)
Inductive Rendered :=
| Placeholder
| Cards (cards : list (string * Video)).

Definition render (videos : list Video) : Rendered :=
  if bool_decide (length videos = 0) then Placeholder
  else Cards ((λ video, (id video, video)) <$> videos).

End VideoGrid.

(** ** [src/App.tsx]: the [App] component *)

Module App.

(** The setters of the component state. *)
Definition setVideos (f : list Video -> list Video) : Async unit :=
  update (λ s, {| videos := f (videos s);
                  playingVideo := playingVideo s;
                  editingVideo := editingVideo s;
                  isGeneratingNewVideo := isGeneratingNewVideo s;
                  isSaving := isSaving s;
                  savingMessage := savingMessage s;
                  generationError := generationError s |}).

Definition setPlayingVideo (v : option Video) : Async unit :=
  update (λ s, {| videos := videos s;
                  playingVideo := v;
                  editingVideo := editingVideo s;
                  isGeneratingNewVideo := isGeneratingNewVideo s;
                  isSaving := isSaving s;
                  savingMessage := savingMessage s;
                  generationError := generationError s |}).

Definition setEditingVideo (v : option Video) : Async unit :=
  update (λ s, {| videos := videos s;
                  playingVideo := playingVideo s;
                  editingVideo := v;
                  isGeneratingNewVideo := isGeneratingNewVideo s;
                  isSaving := isSaving s;
                  savingMessage := savingMessage s;
                  generationError := generationError s |}).

Definition setIsGeneratingNewVideo (b : bool) : Async unit :=
  update (λ s, {| videos := videos s;
                  playingVideo := playingVideo s;
                  editingVideo := editingVideo s;
                  isGeneratingNewVideo := b;
                  isSaving := isSaving s;
                  savingMessage := savingMessage s;
                  generationError := generationError s |}).

Definition setIsSaving (b : bool) : Async unit :=
  update (λ s, {| videos := videos s;
                  playingVideo := playingVideo s;
                  editingVideo := editingVideo s;
                  isGeneratingNewVideo := isGeneratingNewVideo s;
                  isSaving := b;
                  savingMessage := savingMessage s;
                  generationError := generationError s |}).

Definition setSavingMessage (m : string) : Async unit :=
  update (λ s, {| videos := videos s;
                  playingVideo := playingVideo s;
                  editingVideo := editingVideo s;
                  isGeneratingNewVideo := isGeneratingNewVideo s;
                  isSaving := isSaving s;
                  savingMessage := m;
                  generationError := generationError s |}).

Definition setGenerationError (e : option (list string)) : Async unit :=
  update (λ s, {| videos := videos s;
                  playingVideo := playingVideo s;
                  editingVideo := editingVideo s;
                  isGeneratingNewVideo := isGeneratingNewVideo s;
                  isSaving := isSaving s;
                  savingMessage := savingMessage s;
                  generationError := e |}).

(** The state the component starts in. *)
Definition initial : AppState :=
  {| videos := [];
     playingVideo := None;
     editingVideo := None;
     isGeneratingNewVideo := false;
     isSaving := false;
     savingMessage := "Creating your video...";
     generationError := None |}.

(** The synchronous handlers. *)
Definition handlePlayVideo (video : Video) : Async unit :=
  setPlayingVideo (Some video).

Definition handleClosePlayer : Async unit := setPlayingVideo None.

Definition handleStartEdit (video : Video) : Async unit :=
  setPlayingVideo None;;
  setEditingVideo (Some video).

Definition handleCancelEdit : Async unit := setEditingVideo None.

Definition handleStartGenerate : Async unit :=
  setPlayingVideo None;;
  setEditingVideo None;;
  setIsGeneratingNewVideo true.

Definition handleCancelGenerate : Async unit := setIsGeneratingNewVideo false.

(** [onClose] of the error modal. *)
Definition ErrorModal_onClose : Async unit := setGenerationError None.

Section Handlers.
Context (w : World) (fuel : nat).

Definition handleGenerateNewVideo (prompt : string) (aspectRatio : AspectRatio)
    (image : option Image) : Async unit :=
  setIsGeneratingNewVideo false;;
  setSavingMessage "Creating your video...";;
  setIsSaving true;;
  setGenerationError None;;
  try_catch_finally
    (videoObjects ← generateVideo w fuel prompt aspectRatio image 1;
     (if bool_decide (length videoObjects = 0)
      then throw (Js.Error "Video generation returned no data.")
      else mret tt);;
     let mimeType := "video/mp4" in
     let videoSrc := mjoin (videoObjects !! 0) in
     let src := "data:" +:+ mimeType +:+ ";base64," +:+ Js.template videoSrc in
     id ← crypto_randomUUID w;
     let newVideo :=
       {| id := id;
          title := "Generated: " +:+ Js.substring0 30 prompt
                   +:+ (if bool_decide (30 < String.length prompt)
                        then "..." else EmptyString);
          description := prompt;
          videoUrl := src |} in
     setVideos (λ currentVideos, newVideo :: currentVideos);;
     setPlayingVideo (Some newVideo))
    (λ error,
       setGenerationError
         (Some ["Video generation failed.";
                "This may be due to a billing issue. Please ensure your Cloud Project is on a paid tier to use this feature."]))
    (setIsSaving false).

Definition handleSaveEdit (originalVideo : Video) : Async unit :=
  setEditingVideo None;;
  setSavingMessage "Creating your remix...";;
  setIsSaving true;;
  setGenerationError None;;
  try_catch_finally
    (let promptText := description originalVideo in
     videoObjects ← generateVideo w fuel promptText Landscape None 1;
     (if bool_decide (length videoObjects = 0)
      then throw (Js.Error "Video generation returned no data.")
      else mret tt);;
     let mimeType := "video/mp4" in
     let videoSrc := mjoin (videoObjects !! 0) in
     let src := "data:" +:+ mimeType +:+ ";base64," +:+ Js.template videoSrc in
     id ← crypto_randomUUID w;
     let newVideo :=
       {| id := id;
          title := "Remix of " +:+ Js.dquote +:+ title originalVideo
                   +:+ Js.dquote;
          description := description originalVideo;
          videoUrl := src |} in
     setVideos (λ currentVideos, newVideo :: currentVideos);;
     setPlayingVideo (Some newVideo))
    (λ error,
       setGenerationError
         (Some ["Video generation failed.";
                "This may be due to a billing issue. Please ensure your Cloud Project is on a paid tier to use this feature."]))
    (setIsSaving false).

(** The button of the form, as [App] wires it:
    [<GenerateVideoPage onGenerate={handleGenerateNewVideo} ... />]. *)
Definition GenerateVideoPage_generate (form : GenerateVideoPage.FormState)
    : Async unit :=
  GenerateVideoPage.handleGenerate handleGenerateNewVideo form.

End Handlers.

(** What [App] returns: the page it shows and the overlays on it. *)
Inductive Page :=
| Grid
| GenerateForm
| EditForm (video : Video)
| SavingProgress (message : string).

Record View := {
  page : Page;
  player : option Video;
  errorModal : option (list string)
}.

Definition render (s : AppState) : View :=
  if isSaving s then
    {| page := SavingProgress (savingMessage s);
       player := None;
       errorModal := None |}
  else
    {| page := if isGeneratingNewVideo s then GenerateForm
               else match editingVideo s with
                    | Some video => EditForm video
                    | None => Grid
                    end;
       player := playingVideo s;
       errorModal := generationError s |}.

End App.

(** ** Definitions used to state the properties *)

(** [only_calls P m]: whatever [m] does, it neither reads nor writes the
    component state, and it adds external calls that satisfy [P] to the
    log, nothing else. *)
Definition only_calls {A} (P : Event -> Prop) (m : Async A) : Prop :=
  ∀ st, ∃ new,
    Forall P new ∧
    ∀ u, m {| ui := u; log := log st |} =
           ((m st).1, {| ui := u; log := new ++ log st |}).

(** The events of the polling loop and of the downloads. *)
Definition polling_event (e : Event) : Prop :=
  match e with
  | Waited _ | Queried _ => True
  | _ => False
  end.

Definition fetch_event (e : Event) : Prop :=
  match e with
  | Fetched _ => True
  | _ => False
  end.

(** The component state once a handler has entered its [try]: the four
    setters that open [handleGenerateNewVideo] and [handleSaveEdit]. *)
Definition started_generate (s : AppState) : AppState :=
  {| videos := videos s;
     playingVideo := playingVideo s;
     editingVideo := editingVideo s;
     isGeneratingNewVideo := false;
     isSaving := true;
     savingMessage := "Creating your video...";
     generationError := None |}.

Definition started_remix (s : AppState) : AppState :=
  {| videos := videos s;
     playingVideo := playingVideo s;
     editingVideo := None;
     isGeneratingNewVideo := isGeneratingNewVideo s;
     isSaving := true;
     savingMessage := "Creating your remix...";
     generationError := None |}.

(** The two lines both handlers put in [generationError] in their [catch]. *)
Definition failure_message : list string :=
  ["Video generation failed.";
   "This may be due to a billing issue. Please ensure your Cloud Project is on a paid tier to use this feature."].

(** The component state when a handler is over: after the [catch] and the
    [finally], and after the two setters of the [try] and the [finally]. *)
Definition failed (s : AppState) : AppState :=
  {| videos := videos s;
     playingVideo := playingVideo s;
     editingVideo := editingVideo s;
     isGeneratingNewVideo := isGeneratingNewVideo s;
     isSaving := false;
     savingMessage := savingMessage s;
     generationError := Some failure_message |}.

Definition succeeded (newVideo : Video) (s : AppState) : AppState :=
  {| videos := newVideo :: videos s;
     playingVideo := Some newVideo;
     editingVideo := editingVideo s;
     isGeneratingNewVideo := isGeneratingNewVideo s;
     isSaving := false;
     savingMessage := savingMessage s;
     generationError := generationError s |}.

(** The entries the two handlers build from the first encoded asset. *)
Definition generated_video (id prompt : string) (videoSrc : option string)
    : Video :=
  {| id := id;
     title := "Generated: " +:+ Js.substring0 30 prompt
              +:+ (if bool_decide (30 < String.length prompt)
                   then "..." else EmptyString);
     description := prompt;
     videoUrl := "data:video/mp4;base64," +:+ Js.template videoSrc |}.

Definition remix_video (id : string) (originalVideo : Video)
    (videoSrc : option string) : Video :=
  {| id := id;
     title := "Remix of " +:+ Js.dquote +:+ title originalVideo +:+ Js.dquote;
     description := description originalVideo;
     videoUrl := "data:video/mp4;base64," +:+ Js.template videoSrc |}.

(** The first two stages of the pipeline: the submission and the polling
    loop, up to the operation the loop ends with. *)
Definition terminal_operation (w : World) (fuel : nat)
    (params : gmap string Js.Value) : Async Operation :=
  ai_models_generateVideos w params ≫= while_not_done w fuel.

(** The asset references of an operation: none when the response or its
    list is missing. *)
Definition assetReferences (operation : Operation) : list GeneratedVideo :=
  default [] (response operation ≫= generatedVideos).

(** [occurs c s]: the code unit [c] occurs in [s]. *)
Fixpoint occurs (c : ascii) (s : string) : Prop :=
  match s with
  | EmptyString => False
  | String a r => a = c ∨ occurs c r
  end.

(** A string that says what it holds: a data URL with a media type and a
    base64 payload. *)
Definition tagged (s : string) : Prop :=
  ∃ mediaType payload, s = "data:" +:+ mediaType +:+ ";base64," +:+ payload.

(** A promise that is rejected. *)
Definition rejected {A} (p : Promise A) : Prop :=
  match state p with
  | inl _ => True
  | inr _ => False
  end.

(** The promise the callback of [videos.map] returns for a reference. *)
Definition promise_of (w : World) (generatedVideo : GeneratedVideo)
    : Promise (option string) :=
  match request_url w generatedVideo with
  | inl e => {| settled_at := {| task := 0; tick := 0 |}; state := inl e |}
  | inr request => read_response (fetch w request)
  end.

(** The requests the callback makes for a list of references, the newest
    first. *)
Definition requests (w : World) (references : list GeneratedVideo)
    : list Event :=
  reverse (omap (λ g, match request_url w g with
                      | inl _ => None
                      | inr request => Some (Fetched request)
                      end) references).

(** What the rendered page offers to the user: each handler [App] passes
    to the component it renders, with any argument the component may call
    it with. The progress page offers nothing. *)
Inductive offered (s : AppState) : Async unit -> Prop :=
| offer_start_generate :
    App.page (App.render s) = App.Grid ->
    offered s App.handleStartGenerate
| offer_play video :
    App.page (App.render s) = App.Grid ->
    offered s (App.handlePlayVideo video)
| offer_cancel_generate :
    App.page (App.render s) = App.GenerateForm ->
    offered s App.handleCancelGenerate
| offer_generate w fuel form :
    App.page (App.render s) = App.GenerateForm ->
    offered s (App.GenerateVideoPage_generate w fuel form)
| offer_cancel_edit video :
    App.page (App.render s) = App.EditForm video ->
    offered s App.handleCancelEdit
| offer_save w fuel video originalVideo :
    App.page (App.render s) = App.EditForm video ->
    offered s (App.handleSaveEdit w fuel originalVideo)
| offer_close_player video :
    App.player (App.render s) = Some video ->
    offered s App.handleClosePlayer
| offer_start_edit video video' :
    App.player (App.render s) = Some video ->
    offered s (App.handleStartEdit video')
| offer_close_error message :
    App.errorModal (App.render s) = Some message ->
    offered s App.ErrorModal_onClose.

(** The component states the application can be in: the initial one, and
    those a handler that was offered leaves when it is over. *)
Inductive reachable : AppState -> Prop :=
| reachable_initial : reachable App.initial
| reachable_step s handler log s' log' :
    reachable s ->
    offered s handler ->
    handler {| ui := s; log := log |}
      = (Normal tt, {| ui := s'; log := log' |}) ->
    reachable s'.

(** The claims that every encoded asset is a tagged string and that a
    refused fetch is the error of the pipeline, as the specification words
    them. *)
Definition every_asset_is_tagged : Prop :=
  ∀ w operation st assets st1,
    collect w operation st = (Normal assets, st1) ->
    Forall (λ a, ∃ s, a = Some s ∧ tagged s) assets.

Definition refused_fetch_is_the_error : Prop :=
  ∀ w operation st c st1 g request res,
    collect w operation st = (c, st1) ->
    g ∈ assetReferences operation ->
    request_url w g = inr request ->
    state (fetch w request) = inr res ->
    ok res = false ->
    c = Throw (Js.Error ("Failed to fetch video: " +:+ pretty (status res)
                         +:+ " " +:+ statusText res)).

(** [reaches w n operation k final]: from the handle [operation], when [n]
    status queries were made before, the service answers [k] more queries,
    each about a handle that is not terminal, and the last answer is the
    terminal handle [final] (for [k = 0], [operation] itself is terminal). *)
Inductive reaches (w : World) : nat -> Operation -> nat -> Operation -> Prop :=
| reaches_done n operation :
    Js.truthy_flag (done operation) = true ->
    reaches w n operation 0 operation
| reaches_query n operation operation' k final :
    Js.truthy_flag (done operation) = false ->
    getVideosOperation w n operation = inr operation' ->
    reaches w (S n) operation' k final ->
    reaches w n operation (S k) final.

(** The claim that the poller makes at least one status query in every run
    of the pipeline that returns, as the specification words it. *)
Definition poller_always_queries : Prop :=
  ∀ w fuel prompt aspectRatio image numberOfVideos st assets st1,
    generateVideo w fuel prompt aspectRatio image numberOfVideos st
      = (Normal assets, st1) ->
    count is_Queried (log st) < count is_Queried (log st1).

(** The claim that a job ending without asset leaves the application on the
    page it showed before the run, as the specification words it. *)
Definition empty_result_returns_to_prior_page : Prop :=
  ∀ w fuel prompt aspectRatio image st operation st1,
    terminal_operation w fuel
      (generateVideos_params prompt aspectRatio image 1) st
      = (Normal operation, st1) ->
    assetReferences operation = [] ->
    ∃ e st2,
      generateVideo w fuel prompt aspectRatio image 1 st = (Throw e, st1) ∧
      App.handleGenerateNewVideo w fuel prompt aspectRatio image st
        = (Normal tt, st2) ∧
      videos (ui st2) = videos (ui st) ∧
      App.page (App.render (ui st2)) = App.page (App.render (ui st)).

(** The claim that building the request fails on a blank prompt, as the
    specification words it: for the pipeline, which builds the request, and
    for the form in front of it. *)
Definition request_builder_rejects_blank_prompt : Prop :=
  ∀ w fuel prompt aspectRatio image numberOfVideos st,
    Js.trim prompt = EmptyString ->
    ∃ e st1,
      generateVideo w fuel prompt aspectRatio image numberOfVideos st
        = (Throw e, st1) ∧
      count is_Submitted (log st1) = count is_Submitted (log st).

Definition form_reports_blank_prompt : Prop :=
  ∀ w fuel form st,
    Js.trim (GenerateVideoPage.prompt form) = EmptyString ->
    (∃ e st1, App.GenerateVideoPage_generate w fuel form st = (Throw e, st1)) ∨
    is_Some (generationError
               (ui (App.GenerateVideoPage_generate w fuel form st).2)).

(** What the user can do, the handler [App] has for it, and whether the
    rendered page offers it. *)
Inductive Action :=
| StartGenerate
| PlayVideo (video : Video)
| CancelGenerate
| Generate (form : GenerateVideoPage.FormState)
| CancelEdit
| SaveEdit (originalVideo : Video)
| ClosePlayer
| StartEdit (video : Video)
| CloseError.

(** The actions that run the pipeline. *)
Definition generates (a : Action) : bool :=
  match a with
  | Generate _ | SaveEdit _ => true
  | _ => false
  end.

Definition perform (w : World) (fuel : nat) (a : Action) : Async unit :=
  match a with
  | StartGenerate => App.handleStartGenerate
  | PlayVideo video => App.handlePlayVideo video
  | CancelGenerate => App.handleCancelGenerate
  | Generate form => App.GenerateVideoPage_generate w fuel form
  | CancelEdit => App.handleCancelEdit
  | SaveEdit originalVideo => App.handleSaveEdit w fuel originalVideo
  | ClosePlayer => App.handleClosePlayer
  | StartEdit video => App.handleStartEdit video
  | CloseError => App.ErrorModal_onClose
  end.

Definition enabled (s : AppState) (a : Action) : bool :=
  let view := App.render s in
  match a, App.page view with
  | StartGenerate, App.Grid => true
  | PlayVideo _, App.Grid => true
  | CancelGenerate, App.GenerateForm => true
  | Generate _, App.GenerateForm => true
  | CancelEdit, App.EditForm _ => true
  | SaveEdit _, App.EditForm _ => true
  | ClosePlayer, _ => bool_decide (is_Some (App.player view))
  | StartEdit _, _ => bool_decide (is_Some (App.player view))
  | CloseError, _ => bool_decide (is_Some (App.errorModal view))
  | _, _ => false
  end.

(** A session in one world: the actions of the user, one after the other,
    each offered by the page and run to its end. *)
Fixpoint session (w : World) (fuel : nat) (actions : list Action)
    (st : Store) : option Store :=
  match actions with
  | [] => Some st
  | a :: rest =>
      if enabled (ui st) a then
        match perform w fuel a st with
        | (Normal tt, st') => session w fuel rest st'
        | _ => None
        end
      else None
  end.

(** [rejects w n operation k e]: from the handle [operation], when [n]
    status queries were made before, the service answers [k - 1] queries
    with handles that are not terminal and rejects the next one with [e]. *)
Inductive rejects (w : World)
    : nat -> Operation -> nat -> Js.Exception -> Prop :=
| rejects_now n operation e :
    Js.truthy_flag (done operation) = false ->
    getVideosOperation w n operation = inl e ->
    rejects w n operation 1 e
| rejects_later n operation operation' k e :
    Js.truthy_flag (done operation) = false ->
    getVideosOperation w n operation = inr operation' ->
    rejects w (S n) operation' k e ->
    rejects w n operation (S k) e.

(** The calls one turn of the polling loop adds to the log for the handle
    it queries: the wait, then the query (the newest first). *)
Definition turn (operation : Operation) : list Event :=
  [Queried operation; Waited 10000].

(** The calls of the pipeline: all but the drawing of an identifier. *)
Definition pipeline_event (e : Event) : Prop := is_DrewUUID e = false.

(** The identifiers of the gallery were drawn from the world, each by a
    draw of its own that the log has. *)
Definition ids_drawn (w : World) (st : Store) : Prop :=
  ∃ draws,
    id <$> videos (ui st) = randomUUID w <$> draws ∧
    NoDup draws ∧
    Forall (λ n, n < count is_DrewUUID (log st)) draws.

(** The prompt an edit of the form types and the aspect ratio it chooses,
    if any, and whether it is about the image. *)
Definition typed (e : GenerateVideoPage.Edit) : option string :=
  match e with
  | GenerateVideoPage.TypePrompt value => Some value
  | _ => None
  end.

Definition chosen (e : GenerateVideoPage.Edit) : option AspectRatio :=
  match e with
  | GenerateVideoPage.ChooseAspectRatio value => Some value
  | _ => None
  end.

Definition about_image (e : GenerateVideoPage.Edit) : bool :=
  match e with
  | GenerateVideoPage.ChooseFile _ | GenerateVideoPage.RemoveImage => true
  | _ => false
  end.

(** ** Worlds to run the program in *)

Module Scenario.

Definition waiting : Operation :=
  {| name := "operations/1"; done := None; response := None |}.

Definition finished (references : list string) : Operation :=
  {| name := "operations/1";
     done := Some true;
     response :=
       Some {| generatedVideos :=
                 Some ((λ u, {| video := Some {| uri := Some u |} |})
                         <$> references) |} |}.

(** The body of every answer: a two byte MP4 stand-in, read one task
    after [res.blob()] is called. *)
Definition body : Promise Blob :=
  {| settled_at := {| task := 1; tick := 0 |};
     state := inr {| blob_type := "video/mp4";
                     blob_bytes := [Byte.x68; Byte.x69] |} |}.

(** A network answer with the given status, [t] tasks after the request. *)
Definition answer (t : nat) (code : nat) (text : string) : Promise Response :=
  {| settled_at := {| task := t; tick := 0 |};
     state := inr {| ok := bool_decide (200 ≤ code < 300);
                     status := code;
                     statusText := text;
                     blob := body |} |}.

(** A world that answers the submission with [submission], the status
    queries with [answers] and the fetches with [network]. *)
Definition world (submission : Js.Exception + Operation)
    (answers : nat -> Js.Exception + Operation)
    (network : string -> Promise Response) : World :=
  {| API_KEY := Some "KEY";
     decodeURIComponent := inr;
     generateVideos := λ _ _, submission;
     getVideosOperation := λ n _, answers n;
     fetch := network;
     randomUUID := λ n, "video-" +:+ pretty n |}.

(** The job ends at the third status query with one asset, which the
    network delivers. *)
Definition delivered : World :=
  world (inr waiting)
    (λ n, if bool_decide (n < 2) then inr waiting
          else inr (finished ["https://veo.example/1?alt=media"]))
    (λ _, answer 40 200 "OK").

(** Every status query finds a finished job with one asset. *)
Definition ready : World :=
  world (inr waiting)
    (λ _, inr (finished ["https://veo.example/1?alt=media"]))
    (λ _, answer 40 200 "OK").

(** The same, but the network refuses the asset. *)
Definition forbidden : World :=
  world (inr waiting)
    (λ _, inr (finished ["https://veo.example/1?alt=media"]))
    (λ _, answer 40 403 "Forbidden").

(** The job ends without any asset. *)
Definition empty : World :=
  world (inr waiting) (λ _, inr (finished [])) (λ _, answer 40 200 "OK").

(** The submission itself answers with a finished job. *)
Definition immediate : World :=
  world (inr (finished ["https://veo.example/1?alt=media"]))
    (λ _, inl (Js.Rejection "not queried")) (λ _, answer 40 200 "OK").

(** The job ends with two assets. *)
Definition twofold : World :=
  world (inr waiting)
    (λ _, inr (finished ["https://veo.example/1?alt=media";
                         "https://veo.example/2?alt=media"]))
    (λ _, answer 40 200 "OK").

(** Two assets: the connection for the first breaks at once, the second is
    refused later. *)
Definition broken : World :=
  world (inr waiting)
    (λ _, inr (finished ["https://veo.example/1?alt=media";
                         "https://veo.example/2?alt=media"]))
    (λ url, if bool_decide (url = "https://veo.example/1?alt=media&key=KEY")
            then {| settled_at := {| task := 1; tick := 0 |};
                    state := inl (Js.Rejection "Failed to fetch") |}
            else answer 40 403 "Forbidden").

(** Two assets: the first is delivered, the second is refused. *)
Definition second_refused : World :=
  world (inr waiting)
    (λ _, inr (finished ["https://veo.example/1?alt=media";
                         "https://veo.example/2?alt=media"]))
    (λ url, if bool_decide (url = "https://veo.example/2?alt=media&key=KEY")
            then answer 40 403 "Forbidden"
            else answer 40 200 "OK").

(** Two assets: the body of the first is lost thirty tasks after its
    answer of the tenth task, the second is refused at the twentieth. *)
Definition late_loss : World :=
  world (inr waiting)
    (λ _, inr (finished ["https://veo.example/1?alt=media";
                         "https://veo.example/2?alt=media"]))
    (λ url, if bool_decide (url = "https://veo.example/2?alt=media&key=KEY")
            then answer 20 403 "Forbidden"
            else {| settled_at := {| task := 10; tick := 0 |};
                    state :=
                      inr {| ok := true;
                             status := 200;
                             statusText := "OK";
                             blob :=
                               {| settled_at := {| task := 30; tick := 0 |};
                                  state := inl (Js.Rejection "body lost") |}
                          |} |}).

(** The store of a freshly mounted application. *)
Definition start : Store := {| ui := App.initial; log := [] |}.

(** The application showing the generation form. *)
Definition at_form : Store :=
  {| ui := {| videos := [];
              playingVideo := None;
              editingVideo := None;
              isGeneratingNewVideo := true;
              isSaving := false;
              savingMessage := "Creating your video...";
              generationError := None |};
     log := [] |}.

Definition cat : Video :=
  {| id := "video-0";
     title := "Generated: A cat in a hat";
     description := "A cat in a hat";
     videoUrl := "data:video/mp4;base64,aGk=" |}.

(** The application showing the editor for the one entry of its
    gallery. *)
Definition at_editor : Store :=
  {| ui := {| videos := [cat];
              playingVideo := None;
              editingVideo := Some cat;
              isGeneratingNewVideo := false;
              isSaving := false;
              savingMessage := "Creating your video...";
              generationError := None |};
     log := [] |}.

End Scenario.

(** ** Further worlds and inputs *)

Module Incident.

(** The service rejects the submission. *)
Definition refused : World :=
  Scenario.world (inl (Js.Rejection "quota exceeded"))
    (λ _, inl (Js.Rejection "not queried"))
    (λ _, Scenario.answer 40 200 "OK").

(** The service answers the first status query and rejects the second. *)
Definition interrupted : World :=
  Scenario.world (inr Scenario.waiting)
    (λ n, if bool_decide (n < 1) then inr Scenario.waiting
          else inl (Js.Rejection "unavailable"))
    (λ _, Scenario.answer 40 200 "OK").

(** The job never ends. *)
Definition endless : World :=
  Scenario.world (inr Scenario.waiting) (λ _, inr Scenario.waiting)
    (λ _, Scenario.answer 40 200 "OK").

(** A finished job with two references, the first of them without
    [video]. *)
Definition headless : Operation :=
  {| name := "operations/1";
     done := Some true;
     response :=
       Some {| generatedVideos :=
                 Some [ {| video := None |};
                        {| video :=
                             Some {| uri :=
                                       Some "https://veo.example/2?alt=media"
                                  |} |} ] |} |}.

(** A finished job with two references, the second of them without
    [video]. *)
Definition tailless : Operation :=
  {| name := "operations/1";
     done := Some true;
     response :=
       Some {| generatedVideos :=
                 Some [ {| video :=
                             Some {| uri :=
                                       Some "https://veo.example/1?alt=media"
                                  |} |};
                        {| video := None |} ] |} |}.

(** Every request is answered with a promise that was rejected when
    [fetch] returned it. *)
Definition offline : World :=
  Scenario.world (inr Scenario.waiting) (λ _, inr tailless)
    (λ _, {| settled_at := {| task := 0; tick := 0 |};
             state := inl (Js.Rejection "bad request") |}).

(** A file of two bytes for the file input. *)
Definition photo : GenerateVideoPage.File :=
  {| GenerateVideoPage.file_type := "image/png";
     GenerateVideoPage.file_content :=
       {| blob_type := "image/png";
          blob_bytes := [Byte.x68; Byte.x69] |} |}.

(** A body whose media type has a parameter list with a comma. *)
Definition odd : Blob :=
  {| blob_type := "video/mp4;codecs=avc1,mp4a";
     blob_bytes := [Byte.x68; Byte.x69] |}.

(** The form with a prompt typed in. *)
Definition typed_in : GenerateVideoPage.FormState :=
  GenerateVideoPage.setPrompt "A cat in a hat" GenerateVideoPage.initial.

(** A prompt of forty-four code units. *)
Definition long_prompt : string :=
  "A dog that chases its own tail around a tree".

(** The application after its first generation: the player shows the new
    entry over the grid. *)
Definition playing : Store :=
  {| ui := {| videos := [Scenario.cat];
              playingVideo := Some Scenario.cat;
              editingVideo := None;
              isGeneratingNewVideo := false;
              isSaving := false;
              savingMessage := "Creating your video...";
              generationError := None |};
     log := [] |}.

(** Two generations, one after the other. *)
Definition two_generations : list Action :=
  [StartGenerate;
   Generate typed_in;
   ClosePlayer;
   StartGenerate;
   Generate (GenerateVideoPage.setPrompt long_prompt typed_in)].

End Incident.

(** * Properties *)

Example trim_blank : Js.trim "  	 " = EmptyString.
Proof. reflexivity. Qed.
Example split_data_url :
  Js.split "," "data:video/mp4;base64,aGk=" = ["data:video/mp4;base64"; "aGk="].
Proof. reflexivity. Qed.
Example base64_hi : Js.base64 [Byte.x68; Byte.x69] = "aGk=".
Proof. reflexivity. Qed.
Example base64_Man : Js.base64 [Byte.x4d; Byte.x61; Byte.x6e; Byte.x4d] = "TWFuTQ==".
Proof. reflexivity. Qed.

(** ** Strings, base64 and [Promise.all] *)

Lemma append_cons c s1 s2 : String c s1 +:+ s2 = String c (s1 +:+ s2).
Proof. reflexivity. Qed.

Lemma occurs_app c s1 s2 : occurs c (s1 +:+ s2) ↔ occurs c s1 ∨ occurs c s2.
Proof.
  induction s1 as [|a s1 IH].
  - change (EmptyString +:+ s2) with s2. simpl. tauto.
  - rewrite append_cons. simpl. tauto.
Qed.

Lemma split_free sep s : ¬ occurs sep s -> Js.split sep s = [s].
Proof.
  induction s as [|a s IH]; simpl; [done |]. intros Hs.
  rewrite bool_decide_false by tauto. rewrite IH by tauto. done.
Qed.

Lemma split_app sep s1 s2 :
  ¬ occurs sep s1 ->
  Js.split sep (s1 +:+ String sep s2) = s1 :: Js.split sep s2.
Proof.
  induction s1 as [|a s1 IH]; intros Hs.
  - change (EmptyString +:+ String sep s2) with (String sep s2). simpl.
    by rewrite bool_decide_true.
  - rewrite append_cons. simpl in *.
    rewrite bool_decide_false by tauto. rewrite IH by tauto. done.
Qed.

Lemma base64_digit_alphabet n : Js.base64_digit n ∈ Js.base64_alphabet.
Proof.
  unfold Js.base64_digit. apply list_elem_of_In, nth_In.
  change (length Js.base64_alphabet) with 64.
  pose proof (N.mod_upper_bound n 64). lia.
Qed.

Lemma base64_occurs c bytes :
  occurs c (Js.base64 bytes) -> c = Js.pad ∨ c ∈ Js.base64_alphabet.
Proof.
  remember (length bytes) as n eqn:Hn. revert bytes Hn.
  induction n as [n IH] using lt_wf_ind.
  intros [|x [|y [|z rest]]] Hn; simpl.
  - done.
  - intros [<-|[<-|[<-|[<-|[]]]]]; auto using base64_digit_alphabet.
  - intros [<-|[<-|[<-|[<-|[]]]]]; auto using base64_digit_alphabet.
  - intros [<-|[<-|[<-|[<-|H]]]]; auto using base64_digit_alphabet.
    eapply (IH (length rest)); [simpl in Hn; lia | reflexivity | exact H].
Qed.

Lemma base64_free c bytes :
  c ≠ Js.pad -> c ∉ Js.base64_alphabet -> ¬ occurs c (Js.base64 bytes).
Proof. intros ?? [|]%base64_occurs; done. Qed.

(** For a blob whose media type has no comma, [bloblToBase64] is the bare
    base64 payload. *)
Lemma bloblToBase64_payload blob :
  ¬ occurs "," (blob_type blob) ->
  bloblToBase64 blob = Some (Js.base64 (blob_bytes blob)).
Proof.
  intros Htype. unfold bloblToBase64, readAsDataURL.
  change (";base64," +:+ Js.base64 (blob_bytes blob))
    with (";base64" +:+ String "," (Js.base64 (blob_bytes blob))).
  assert (Assoc : ∀ a b c, a +:+ b +:+ c = (a +:+ b) +:+ c).
  { intros a b c. induction a; [done |]. rewrite !append_cons. by f_equal. }
  rewrite (Assoc (blob_type blob)), (Assoc "data:").
  rewrite split_app.
  - rewrite split_free; [done |].
    apply base64_free; [done |]. apply (bool_decide_unpack _). by vm_compute.
  - rewrite !occurs_app. simpl. intros H. by decompose [or] H.
Qed.

(** A base64 payload is not a data URL: it has no colon. *)
Lemma base64_not_tagged bytes : ¬ tagged (Js.base64 bytes).
Proof.
  intros (mediaType & payload & E).
  assert (H : occurs ":" (Js.base64 bytes)).
  { rewrite E. apply occurs_app. left. simpl. tauto. }
  revert H. apply base64_free; [done |]. apply (bool_decide_unpack _). by vm_compute.
Qed.

(** The order of the instants. *)
Lemma earlier_true a b :
  earlier a b = true ↔ task a < task b ∨ (task a = task b ∧ tick a < tick b).
Proof.
  unfold earlier. rewrite orb_true_iff, andb_true_iff, !bool_decide_eq_true.
  tauto.
Qed.

Lemma earlier_false a b :
  earlier a b = false
  ↔ task b < task a ∨ (task a = task b ∧ tick b ≤ tick a).
Proof.
  rewrite <- not_true_iff_false, earlier_true. lia.
Qed.

Lemma first_rejection_None {A} (ps : list (Promise A)) :
  first_rejection ps = None ↔ Forall (λ p, ¬ rejected p) ps.
Proof.
  unfold rejected. induction ps as [|p ps IH]; simpl; [done |].
  rewrite Forall_cons, <- IH.
  destruct (state p) as [e|a], (first_rejection ps) as [[t e']|];
    try destruct (earlier _ _); split; try done; try tauto;
    by intros [_ [=]%IH].
Qed.

Lemma first_rejection_Some {A} (ps : list (Promise A)) t e :
  first_rejection ps = Some (t, e) ->
  ∃ p, p ∈ ps ∧ state p = inl e ∧ settled_at p = t ∧
       ∀ q, q ∈ ps -> rejected q -> earlier (settled_at q) t = false.
Proof.
  unfold rejected. revert t e. induction ps as [|p ps IH]; intros t e; simpl;
    [done |].
  destruct (state p) as [e0|a] eqn:Ep.
  - destruct (first_rejection ps) as [[t' e']|] eqn:Er.
    + destruct (IH t' e' eq_refl) as (p' & Hin & Hp' & Ht' & Hmin).
      destruct (earlier t' (settled_at p)) eqn:Hearlier; intros [= <- <-].
      * exists p'. split_and!; [set_solver | done.. |].
        intros q [->|Hq]%elem_of_cons Hrej; [| by apply Hmin].
        apply earlier_true in Hearlier. apply earlier_false. lia.
      * exists p. split_and!; [set_solver | done.. |].
        intros q [->|Hq]%elem_of_cons Hrej; [apply earlier_false; lia |].
        specialize (Hmin q Hq Hrej).
        rewrite earlier_false in Hearlier, Hmin. apply earlier_false. lia.
    + intros [= <- <-]. exists p. split_and!; [set_solver | done.. |].
      intros q [->|Hq]%elem_of_cons Hrej; [apply earlier_false; lia |].
      apply first_rejection_None in Er.
      rewrite Forall_forall in Er. by destruct (Er q Hq).
  - intros Er. destruct (IH t e Er) as (p' & Hin & Hp' & Ht' & Hmin).
    exists p'. split_and!; [set_solver | done.. |].
    intros q [->|Hq]%elem_of_cons Hrej; [by rewrite Ep in Hrej | by apply Hmin].
Qed.

Lemma Promise_all_fulfilled {A} (ps : list (Promise A)) vs :
  Promise_all ps = inr vs -> Forall2 (λ p v, state p = inr v) ps vs.
Proof.
  unfold Promise_all.
  destruct (first_rejection ps) as [[t e]|] eqn:Er; [done |].
  intros [= <-]. apply first_rejection_None in Er.
  induction Er as [|p ps Hp _ IH]; simpl; [constructor |].
  unfold rejected in Hp. unfold fulfilled at 1.
  destruct (state p) as [e|a] eqn:Ep; [done |]. by constructor.
Qed.

Lemma Promise_all_rejected {A} (ps : list (Promise A)) e :
  Promise_all ps = inl e ->
  ∃ p, p ∈ ps ∧ state p = inl e ∧
       ∀ q, q ∈ ps -> rejected q ->
            earlier (settled_at q) (settled_at p) = false.
Proof.
  unfold Promise_all.
  destruct (first_rejection ps) as [[t e']|] eqn:Er; [| done].
  intros [= <-]. apply first_rejection_Some in Er as (p & ? & ? & <- & ?).
  by exists p.
Qed.

Lemma Promise_all_fails {A} (ps : list (Promise A)) p :
  p ∈ ps -> rejected p -> ∃ e, Promise_all ps = inl e.
Proof.
  intros Hin Hrej. unfold Promise_all.
  destruct (first_rejection ps) as [[t e]|] eqn:Er; [by exists e |].
  apply first_rejection_None in Er. rewrite Forall_forall in Er.
  by destruct (Er p Hin).
Qed.

(** ** What a computation does to the store *)

Lemma bind_run {A B} (m : Async A) (k : A -> Async B) st :
  (m ≫= k) st =
    match m st with
    | (Normal a, st') => k a st'
    | (Throw e, st') => (Throw e, st')
    | (Pending, st') => (Pending, st')
    end.
Proof. reflexivity. Qed.

Lemma store_eta st : {| ui := ui st; log := log st |} = st.
Proof. by destruct st. Qed.

Lemma only_calls_blind {A} (m : Async A) :
  (∀ st u, m {| ui := u; log := log st |} =
             ((m st).1, {| ui := u; log := log st |})) ->
  ∀ P, only_calls P m.
Proof. intros Hm P st. exists []. split; [done | apply Hm]. Qed.

Lemma only_calls_ret {A} P (a : A) : only_calls P (mret a).
Proof. by apply only_calls_blind. Qed.

Lemma only_calls_throw {A} P e : only_calls P (@throw A e).
Proof. by apply only_calls_blind. Qed.

Lemma only_calls_pending {A} P : only_calls P (@pending A).
Proof. by apply only_calls_blind. Qed.

Lemma only_calls_await {A} P (p : Js.Exception + A) : only_calls P (await p).
Proof. destruct p; [apply only_calls_throw | apply only_calls_ret]. Qed.

Lemma only_calls_so_far P kind : only_calls P (calls_so_far kind).
Proof. by apply only_calls_blind. Qed.

Lemma only_calls_emit (P : Event -> Prop) e : P e -> only_calls P (emit e).
Proof. intros He st. exists [e]. split; [by constructor | done]. Qed.

Lemma only_calls_bind {A B} P (m : Async A) (k : A -> Async B) :
  only_calls P m -> (∀ a, only_calls P (k a)) -> only_calls P (m ≫= k).
Proof.
  intros Hm Hk st. destruct (Hm st) as (new1 & F1 & E1).
  pose proof (E1 (ui st)) as E1st. rewrite store_eta in E1st.
  destruct (m st) as [[a|e|] st1] eqn:Em; simpl in *; simplify_eq.
  - destruct (Hk a {| ui := ui st; log := new1 ++ log st |})
      as (new2 & F2 & E2). simpl in E2.
    exists (new2 ++ new1). split; [by apply Forall_app |].
    intros u. rewrite !bind_run, E1, Em, E2. by rewrite app_assoc.
  - exists new1. split; [done |]. intros u. by rewrite !bind_run, E1, Em.
  - exists new1. split; [done |]. intros u. by rewrite !bind_run, E1, Em.
Qed.

Lemma only_calls_weaken {A} (P Q : Event -> Prop) (m : Async A) :
  (∀ e, P e -> Q e) -> only_calls P m -> only_calls Q m.
Proof.
  intros HPQ Hm st. destruct (Hm st) as (new & F & E).
  exists new. split; [by eapply Forall_impl | done].
Qed.

Lemma only_calls_mapM {A B} P (f : A -> Async B) (l : list A) :
  (∀ a, only_calls P (f a)) -> only_calls P (mapM f l).
Proof.
  intros Hf. induction l as [|a l IH]; simpl.
  - apply only_calls_ret.
  - apply only_calls_bind; [apply Hf | intros b].
    apply only_calls_bind; [apply IH | intros bs]. apply only_calls_ret.
Qed.

(** The store after a computation that only makes calls. *)
Lemma only_calls_store {A} P (m : Async A) st :
  only_calls P m ->
  ∃ new, Forall P new ∧ (m st).2 = {| ui := ui st; log := new ++ log st |}.
Proof.
  intros Hm. destruct (Hm st) as (new & F & E). exists new. split; [done |].
  specialize (E (ui st)). rewrite store_eta in E. by rewrite E.
Qed.

Section PipelineFacts.
Context (w : World).

Lemma generateVideos_run params st :
  ai_models_generateVideos w params st =
    (match generateVideos w (count is_Submitted (log st)) params with
     | inl e => Throw e
     | inr operation => Normal operation
     end,
     {| ui := ui st; log := Submitted params :: log st |}).
Proof.
  unfold ai_models_generateVideos. rewrite !bind_run. simpl.
  by destruct (generateVideos w _ params).
Qed.

Lemma getVideosOperation_run operation st :
  ai_operations_getVideosOperation w operation st =
    (match getVideosOperation w (count is_Queried (log st)) operation with
     | inl e => Throw e
     | inr operation' => Normal operation'
     end,
     {| ui := ui st; log := Queried operation :: log st |}).
Proof.
  unfold ai_operations_getVideosOperation. rewrite !bind_run. simpl.
  by destruct (getVideosOperation w _ operation).
Qed.

Lemma while_not_done_only_calls fuel operation :
  only_calls polling_event (while_not_done w fuel operation).
Proof.
  revert operation. induction fuel as [|fuel IH]; intros operation; simpl;
    destruct (Js.truthy_flag (done operation));
    try apply only_calls_ret; try apply only_calls_pending.
  apply only_calls_bind; [by apply only_calls_emit | intros _].
  apply only_calls_bind; [| intros op'; apply IH].
  apply only_calls_bind; [apply only_calls_so_far | intros n].
  apply only_calls_bind; [by apply only_calls_emit | intros _].
  apply only_calls_await.
Qed.

Lemma download_only_calls generatedVideo :
  only_calls fetch_event (download w generatedVideo).
Proof.
  unfold download. destruct (request_url w generatedVideo) as [e|request];
    [apply only_calls_ret |].
  apply only_calls_bind; [by apply only_calls_emit | intros _].
  apply only_calls_ret.
Qed.

Lemma download_run generatedVideo st :
  download w generatedVideo st =
    (Normal (promise_of w generatedVideo),
     {| ui := ui st; log := requests w [generatedVideo] ++ log st |}).
Proof.
  unfold download, promise_of, requests. simpl.
  destruct (request_url w generatedVideo) as [e|request]; simpl;
    by rewrite ?store_eta.
Qed.

Lemma requests_cons g gs :
  requests w (g :: gs) = requests w gs ++ requests w [g].
Proof.
  unfold requests. simpl. destruct (request_url w g); simpl.
  - by rewrite app_nil_r.
  - by rewrite reverse_cons.
Qed.

Lemma mapM_download_run references st :
  mapM (download w) references st =
    (Normal (promise_of w <$> references),
     {| ui := ui st; log := requests w references ++ log st |}).
Proof.
  revert st. induction references as [|g gs IH]; intros st; simpl.
  - by rewrite store_eta.
  - rewrite bind_run, download_run, bind_run, IH. simpl.
    rewrite (requests_cons g gs), <- app_assoc. reflexivity.
Qed.

(** The last block of the pipeline on an operation that has references. *)
Lemma collect_run operation g gs st :
  assetReferences operation = g :: gs ->
  collect w operation st =
    (match Promise_all (promise_of w <$> g :: gs) with
     | inl e => Throw e
     | inr assets => Normal assets
     end,
     {| ui := ui st; log := requests w (g :: gs) ++ log st |}).
Proof.
  unfold assetReferences, collect.
  destruct (response operation) as [r|]; [| done]. simpl.
  destruct (generatedVideos r) as [[|v vs]|]; try done.
  intros H. simpl in H. injection H as -> ->.
  rewrite bind_run, mapM_download_run.
  by destruct (Promise_all _).
Qed.

Lemma collect_only_calls operation :
  only_calls fetch_event (collect w operation).
Proof.
  unfold collect. destruct (response operation) as [r|];
    [| apply only_calls_throw].
  destruct (generatedVideos r) as [[|v vs]|]; try apply only_calls_throw.
  apply only_calls_bind; [| intros ps; apply only_calls_await].
  apply only_calls_mapM, download_only_calls.
Qed.

(** The pipeline makes one submission, its first call, and neither reads
    nor writes the component state. *)
Lemma generateVideo_store fuel prompt aspectRatio image numberOfVideos st :
  ∃ later,
    Forall (λ e, is_Submitted e = false) later ∧
    ∀ u,
      generateVideo w fuel prompt aspectRatio image numberOfVideos
        {| ui := u; log := log st |} =
      ((generateVideo w fuel prompt aspectRatio image numberOfVideos st).1,
       {| ui := u;
          log := later ++
                 Submitted (generateVideos_params prompt aspectRatio image
                              numberOfVideos) :: log st |}).
Proof.
  unfold generateVideo. set (params := generateVideos_params _ _ _ _).
  rewrite bind_run, generateVideos_run.
  destruct (generateVideos w _ params) as [e|operation] eqn:Es.
  { exists []. split; [done |]. intros u.
    rewrite bind_run, generateVideos_run. simpl. by rewrite Es. }
  set (st1 := {| ui := ui st; log := Submitted params :: log st |}).
  match goal with
  | |- context [(?m st1).1] =>
      assert (Hrest : only_calls (λ e, is_Submitted e = false) m)
  end.
  { apply only_calls_bind.
    - eapply only_calls_weaken; [| apply while_not_done_only_calls].
      by intros [].
    - intros op'. eapply only_calls_weaken; [| apply collect_only_calls].
      by intros []. }
  destruct (Hrest st1) as (later & F & E). exists later. split; [done |].
  intros u. rewrite bind_run, generateVideos_run. simpl. rewrite Es.
  apply (E u).
Qed.

(** The outcome of the pipeline and the calls it makes are the same
    whatever the component state is. *)
Lemma generateVideo_any_ui fuel prompt aspectRatio image numberOfVideos st c st1 :
  generateVideo w fuel prompt aspectRatio image numberOfVideos st = (c, st1) ->
  ui st1 = ui st ∧
  ∀ u, generateVideo w fuel prompt aspectRatio image numberOfVideos
         {| ui := u; log := log st |} = (c, {| ui := u; log := log st1 |}).
Proof.
  intros E.
  destruct (generateVideo_store fuel prompt aspectRatio image numberOfVideos st)
    as (later & _ & Hst).
  pose proof (Hst (ui st)) as E'. rewrite store_eta, E in E'. simpl in E'.
  simplify_eq. split; [done |]. intros u. rewrite Hst, E. done.
Qed.

Lemma generateVideo_stages fuel prompt aspectRatio image numberOfVideos st :
  generateVideo w fuel prompt aspectRatio image numberOfVideos st =
    (terminal_operation w fuel
       (generateVideos_params prompt aspectRatio image numberOfVideos)
     ≫= collect w) st.
Proof.
  unfold generateVideo, terminal_operation. rewrite !bind_run.
  by destruct (ai_models_generateVideos _ _ _) as [[op|e|] st1].
Qed.

Lemma collect_empty operation st :
  assetReferences operation = [] ->
  collect w operation st = (Throw (Js.Error "No videos generated"), st).
Proof.
  unfold assetReferences, collect.
  destruct (response operation) as [r|]; [| done]. simpl.
  by destruct (generatedVideos r) as [[|v vs]|].
Qed.

End PipelineFacts.

(** ** The two asynchronous handlers, in terms of the pipeline's outcome *)

Section HandlerFacts.
Context (w : World) (fuel : nat).

#[local] Arguments generateVideo : simpl never.

#[local] Ltac unfold_handler :=
  unfold try_catch_finally, try_finally, try_catch,
    App.setIsGeneratingNewVideo, App.setSavingMessage,
    App.setIsSaving, App.setGenerationError, App.setEditingVideo,
    App.setVideos, App.setPlayingVideo, update, crypto_randomUUID,
    calls_so_far, emit, mbind, Async_bind;
  cbn.

Lemma handleGenerateNewVideo_run prompt aspectRatio image st :
  App.handleGenerateNewVideo w fuel prompt aspectRatio image st =
    match generateVideo w fuel prompt aspectRatio image 1
            {| ui := started_generate (ui st); log := log st |} with
    | (Normal (videoSrc :: _), st1) =>
        (Normal tt,
         {| ui := succeeded
                    (generated_video
                       (randomUUID w (count is_DrewUUID (log st1)))
                       prompt videoSrc)
                    (ui st1);
            log := DrewUUID :: log st1 |})
    | (Normal [], st1) | (Throw _, st1) =>
        (Normal tt, {| ui := failed (ui st1); log := log st1 |})
    | (Pending, st1) => (Pending, st1)
    end.
Proof.
  unfold App.handleGenerateNewVideo. unfold_handler.
  fold (started_generate (ui st)).
  destruct (generateVideo _ _ _ _ _ _ _) as [[[|videoSrc rest]|e|] st1];
    reflexivity.
Qed.

Lemma handleSaveEdit_run originalVideo st :
  App.handleSaveEdit w fuel originalVideo st =
    match generateVideo w fuel (description originalVideo) Landscape None 1
            {| ui := started_remix (ui st); log := log st |} with
    | (Normal (videoSrc :: _), st1) =>
        (Normal tt,
         {| ui := succeeded
                    (remix_video (randomUUID w (count is_DrewUUID (log st1)))
                       originalVideo videoSrc)
                    (ui st1);
            log := DrewUUID :: log st1 |})
    | (Normal [], st1) | (Throw _, st1) =>
        (Normal tt, {| ui := failed (ui st1); log := log st1 |})
    | (Pending, st1) => (Pending, st1)
    end.
Proof.
  unfold App.handleSaveEdit. unfold_handler.
  fold (started_remix (ui st)).
  destruct (generateVideo _ _ _ _ _ _ _) as [[[|videoSrc rest]|e|] st1];
    reflexivity.
Qed.

End HandlerFacts.

(** The generation form is never open together with the editor or the
    player. *)
Lemma reachable_form_alone s :
  reachable s ->
  isGeneratingNewVideo s = true ->
  editingVideo s = None ∧ playingVideo s = None.
Proof.
  induction 1 as [|s handler log s' log' Hs IH Hoffer Hrun]; [done |].
  destruct Hoffer as [Hp|video Hp|Hp|w' fuel' form Hp|video Hp
                     |w' fuel' video originalVideo Hp|video Hp|video video' Hp
                     |message Hp];
    unfold App.render in Hp;
    destruct (isSaving s) eqn:Hsaving; simpl in Hp; try discriminate Hp.
  - by injection Hrun as <- _.
  - injection Hrun as <- _. simpl. by destruct (isGeneratingNewVideo s).
  - by injection Hrun as <- _.
  - unfold App.GenerateVideoPage_generate, GenerateVideoPage.handleGenerate
      in Hrun.
    destruct (Js.truthy_string _).
    + rewrite handleGenerateNewVideo_run in Hrun.
      destruct (generateVideo _ _ _ _ _ _ _)
        as [[[|videoSrc rest]|e|] st1] eqn:E; try discriminate Hrun;
        apply generateVideo_any_ui in E as [E _]; simpl in E;
        injection Hrun as <- _; by rewrite E.
    + injection Hrun as <- _. auto.
  - injection Hrun as <- _. simpl. by destruct (isGeneratingNewVideo s).
  - rewrite handleSaveEdit_run in Hrun.
    destruct (isGeneratingNewVideo s) eqn:Hgen; [done |].
    destruct (generateVideo _ _ _ _ _ _ _)
      as [[[|videoSrc rest]|e|] st1] eqn:E; try discriminate Hrun;
      apply generateVideo_any_ui in E as [E _]; simpl in E;
      injection Hrun as <- _; rewrite E; simpl; by rewrite Hgen.
  - injection Hrun as <- _. simpl. intros Hgen.
    destruct (IH Hgen) as [? Hplay]. by rewrite Hplay in Hp.
  - injection Hrun as <- _. simpl. intros Hgen.
    destruct (IH Hgen) as [? Hplay]. by rewrite Hplay in Hp.
  - injection Hrun as <- _. simpl. auto.
Qed.

(** ** The claims about the two handlers *)

Section HandlerClaims.
Context (w : World) (fuel : nat).

(** One successful run of [handleGenerateNewVideo]. *)
Lemma handleGenerateNewVideo_success prompt aspectRatio image st videoSrc rest st1 :
  generateVideo w fuel prompt aspectRatio image 1 st
    = (Normal (videoSrc :: rest), st1) ->
  App.handleGenerateNewVideo w fuel prompt aspectRatio image st =
    (Normal tt,
     {| ui := succeeded
                (generated_video (randomUUID w (count is_DrewUUID (log st1)))
                   prompt videoSrc)
                (started_generate (ui st));
        log := DrewUUID :: log st1 |}).
Proof.
  intros E. apply generateVideo_any_ui in E as [_ E].
  by rewrite handleGenerateNewVideo_run, E.
Qed.

(** One successful run of [handleSaveEdit]. *)
Lemma handleSaveEdit_success originalVideo st videoSrc rest st1 :
  generateVideo w fuel (description originalVideo) Landscape None 1 st
    = (Normal (videoSrc :: rest), st1) ->
  App.handleSaveEdit w fuel originalVideo st =
    (Normal tt,
     {| ui := succeeded
                (remix_video (randomUUID w (count is_DrewUUID (log st1)))
                   originalVideo videoSrc)
                (started_remix (ui st));
        log := DrewUUID :: log st1 |}).
Proof.
  intros E. apply generateVideo_any_ui in E as [_ E].
  by rewrite handleSaveEdit_run, E.
Qed.

(** A run of either handler whose pipeline does not deliver. *)
Lemma handleGenerateNewVideo_failure prompt aspectRatio image st c st1 :
  generateVideo w fuel prompt aspectRatio image 1 st = (c, st1) ->
  (c = Normal [] ∨ ∃ e, c = Throw e) ->
  App.handleGenerateNewVideo w fuel prompt aspectRatio image st =
    (Normal tt,
     {| ui := failed (started_generate (ui st)); log := log st1 |}).
Proof.
  intros E Hc. apply generateVideo_any_ui in E as [_ E].
  rewrite handleGenerateNewVideo_run, E. by destruct Hc as [->|[e ->]].
Qed.

Lemma handleSaveEdit_failure originalVideo st c st1 :
  generateVideo w fuel (description originalVideo) Landscape None 1 st
    = (c, st1) ->
  (c = Normal [] ∨ ∃ e, c = Throw e) ->
  App.handleSaveEdit w fuel originalVideo st =
    (Normal tt, {| ui := failed (started_remix (ui st)); log := log st1 |}).
Proof.
  intros E Hc. apply generateVideo_any_ui in E as [_ E].
  rewrite handleSaveEdit_run, E. by destruct Hc as [->|[e ->]].
Qed.

(** While either handler waits for the pipeline, the progress page is
    rendered, with the message of the handler. *)
Lemma pending_run_shows_progress st :
  (∀ prompt aspectRatio image st2,
     App.handleGenerateNewVideo w fuel prompt aspectRatio image st
       = (Pending, st2) ->
     App.render (ui st2)
       = {| App.page := App.SavingProgress "Creating your video...";
            App.player := None;
            App.errorModal := None |}) ∧
  (∀ originalVideo st2,
     App.handleSaveEdit w fuel originalVideo st = (Pending, st2) ->
     App.render (ui st2)
       = {| App.page := App.SavingProgress "Creating your remix...";
            App.player := None;
            App.errorModal := None |}).
Proof.
  split.
  - intros prompt aspectRatio image st2. rewrite handleGenerateNewVideo_run.
    destruct (generateVideo _ _ _ _ _ _ _) as [[[|videoSrc rest]|e|] st1] eqn:E;
      intros [= <-]. by apply generateVideo_any_ui in E as [-> _].
  - intros originalVideo st2. rewrite handleSaveEdit_run.
    destruct (generateVideo _ _ _ _ _ _ _) as [[[|videoSrc rest]|e|] st1] eqn:E;
      intros [= <-]. by apply generateVideo_any_ui in E as [-> _].
Qed.

(** Where an exception of the pipeline comes from: the submission or a
    status query was rejected; or the job ended without asset; or the
    promise of an asset was rejected. *)
Lemma generateVideo_failure_stages prompt aspectRatio image numberOfVideos
    st e st1 :
  generateVideo w fuel prompt aspectRatio image numberOfVideos st
    = (Throw e, st1) ->
  let params :=
    generateVideos_params prompt aspectRatio image numberOfVideos in
  terminal_operation w fuel params st = (Throw e, st1) ∨
  (∃ operation,
     terminal_operation w fuel params st = (Normal operation, st1) ∧
     assetReferences operation = [] ∧
     e = Js.Error "No videos generated") ∨
  (∃ operation st0,
     terminal_operation w fuel params st = (Normal operation, st0) ∧
     assetReferences operation ≠ [] ∧
     Promise_all (promise_of w <$> assetReferences operation) = inl e).
Proof.
  intros E params. rewrite generateVideo_stages, bind_run in E.
  fold params in E.
  destruct (terminal_operation w fuel params st) as [[operation|e'|] st0];
    [| left; congruence | done].
  right. destruct (assetReferences operation) as [|g gs] eqn:Hrefs.
  - left. exists operation. rewrite collect_empty in E by done.
    by injection E as <- <-.
  - right. exists operation, st0. rewrite (collect_run _ _ g gs) in E by done.
    split_and!; [done | by rewrite Hrefs | rewrite Hrefs].
    destruct (Promise_all _) as [e'|assets]; congruence.
Qed.

(** C1. Every successful run of the generation pipeline from the form
    prepends exactly one entry to the gallery. Its description is the
    prompt, its title is the prompt cut after thirty code units (with an
    ellipsis when something was cut) behind a fixed prefix, its URL is the
    data URL of the first encoded asset, and the player opens on it. A
    second successful run puts its entry in front of the first one. *)
Theorem C1_success_prepends_one_video
    prompt aspectRatio image st videoSrc rest st1 :
  generateVideo w fuel prompt aspectRatio image 1 st
    = (Normal (videoSrc :: rest), st1) ->
  ∃ V1 st2,
    App.handleGenerateNewVideo w fuel prompt aspectRatio image st
      = (Normal tt, st2) ∧
    videos (ui st2) = V1 :: videos (ui st) ∧
    description V1 = prompt ∧
    title V1 = "Generated: " +:+ String.substring 0 30 prompt
               +:+ (if bool_decide (30 < String.length prompt)
                    then "..." else EmptyString) ∧
    videoUrl V1 = "data:video/mp4;base64," +:+ Js.template videoSrc ∧
    playingVideo (ui st2) = Some V1 ∧
    App.player (App.render (ui st2)) = Some V1 ∧
    ∀ prompt' aspectRatio' image' videoSrc' rest' st3,
      generateVideo w fuel prompt' aspectRatio' image' 1 st2
        = (Normal (videoSrc' :: rest'), st3) ->
      ∃ V2 st4,
        App.handleGenerateNewVideo w fuel prompt' aspectRatio' image' st2
          = (Normal tt, st4) ∧
        videos (ui st4) = V2 :: V1 :: videos (ui st) ∧
        description V2 = prompt'.
Proof.
  intros E. eexists _, _.
  split; [eapply handleGenerateNewVideo_success; eassumption |].
  repeat (split; [reflexivity |]).
  intros prompt' aspectRatio' image' videoSrc' rest' st3 E'.
  eexists _, _. split; [eapply handleGenerateNewVideo_success; eassumption |].
  split; reflexivity.
Qed.

(** C2. Every run of either handler whose pipeline fails, at whatever
    stage and with whatever exception, leaves the gallery as it was, builds
    no entry (no identifier is drawn, the player is not touched), shows the
    error overlay and leaves the progress page; and every run that comes to
    an end, successful or not, has left the progress page. *)
Theorem C2_failure_keeps_gallery_and_leaves_progress st :
  (∀ prompt aspectRatio image e st1,
     generateVideo w fuel prompt aspectRatio image 1 st = (Throw e, st1) ->
     ∃ st2,
       App.handleGenerateNewVideo w fuel prompt aspectRatio image st
         = (Normal tt, st2) ∧
       videos (ui st2) = videos (ui st) ∧
       playingVideo (ui st2) = playingVideo (ui st) ∧
       log st2 = log st1 ∧
       isSaving (ui st2) = false ∧
       App.errorModal (App.render (ui st2)) = Some failure_message) ∧
  (∀ originalVideo e st1,
     generateVideo w fuel (description originalVideo) Landscape None 1 st
       = (Throw e, st1) ->
     ∃ st2,
       App.handleSaveEdit w fuel originalVideo st = (Normal tt, st2) ∧
       videos (ui st2) = videos (ui st) ∧
       playingVideo (ui st2) = playingVideo (ui st) ∧
       log st2 = log st1 ∧
       isSaving (ui st2) = false ∧
       App.errorModal (App.render (ui st2)) = Some failure_message) ∧
  (∀ prompt aspectRatio image c st2,
     App.handleGenerateNewVideo w fuel prompt aspectRatio image st = (c, st2) ->
     c ≠ Pending ->
     isSaving (ui st2) = false ∧
     ∀ message, App.page (App.render (ui st2)) ≠ App.SavingProgress message) ∧
  (∀ originalVideo c st2,
     App.handleSaveEdit w fuel originalVideo st = (c, st2) ->
     c ≠ Pending ->
     isSaving (ui st2) = false ∧
     ∀ message, App.page (App.render (ui st2)) ≠ App.SavingProgress message).
Proof.
  split_and!.
  - intros prompt aspectRatio image e st1 E. eexists. split.
    + eapply handleGenerateNewVideo_failure; eauto.
    + done.
  - intros originalVideo e st1 E. eexists. split.
    + eapply handleSaveEdit_failure; eauto.
    + done.
  - intros prompt aspectRatio image c st2. rewrite handleGenerateNewVideo_run.
    destruct (generateVideo _ _ _ _ _ _ _) as [[[|videoSrc rest]|e|] st1];
      intros [= <- <-] Hc; try done; (split; [done |]);
      intros message; unfold App.render; simpl; by repeat case_match.
  - intros originalVideo c st2. rewrite handleSaveEdit_run.
    destruct (generateVideo _ _ _ _ _ _ _) as [[[|videoSrc rest]|e|] st1];
      intros [= <- <-] Hc; try done; (split; [done |]);
      intros message; unfold App.render; simpl; by repeat case_match.
Qed.

(** C3. Whatever exception the pipeline ends with, both handlers put the
    same two lines in [generationError]: a headline and a hint that names
    billing and the paid tier. The exception is not looked at. *)
Theorem C3_one_message_for_every_error e st1 st :
  (∀ prompt aspectRatio image,
     generateVideo w fuel prompt aspectRatio image 1 st = (Throw e, st1) ->
     generationError
       (ui (App.handleGenerateNewVideo w fuel prompt aspectRatio image st).2)
     = Some ["Video generation failed.";
             "This may be due to a billing issue. Please ensure your Cloud Project is on a paid tier to use this feature."]) ∧
  (∀ originalVideo,
     generateVideo w fuel (description originalVideo) Landscape None 1 st
       = (Throw e, st1) ->
     generationError (ui (App.handleSaveEdit w fuel originalVideo st).2)
     = Some ["Video generation failed.";
             "This may be due to a billing issue. Please ensure your Cloud Project is on a paid tier to use this feature."]) ∧
  Js.includes "billing"
    "This may be due to a billing issue. Please ensure your Cloud Project is on a paid tier to use this feature."
    = true ∧
  Js.includes "paid tier"
    "This may be due to a billing issue. Please ensure your Cloud Project is on a paid tier to use this feature."
    = true.
Proof.
  split_and!; [| | reflexivity..].
  - intros prompt aspectRatio image E.
    erewrite handleGenerateNewVideo_failure; eauto.
  - intros originalVideo E. erewrite handleSaveEdit_failure; eauto.
Qed.

(** C4, as the code has it. When the job ends and its operation has no
    response, no list of videos or an empty one, the pipeline throws
    [Error: No videos generated] without fetching anything; the handler
    of the form then leaves the gallery as it was, shows the error overlay
    and leaves the progress page. The page that follows is not the form
    the run was started from, which the handler closed before the pipeline
    started: it is the editor when the state the handler was called in
    holds an entry to edit, which no state that the application reaches
    with the form open does, and the grid otherwise. The same holds of a
    remix, which submits the description of its original with 16:9 and no
    image: the handler of the editor leaves the gallery as it was, shows
    the error overlay and leaves the progress page, and the page that
    follows a run started from the editor is the grid, not the editor,
    which the handler closed before the pipeline started. *)
Theorem C4_empty_result_fails_and_shows_grid
    prompt aspectRatio image st operation st1 :
  terminal_operation w fuel
    (generateVideos_params prompt aspectRatio image 1) st
    = (Normal operation, st1) ->
  assetReferences operation = [] ->
  generateVideo w fuel prompt aspectRatio image 1 st
    = (Throw (Js.Error "No videos generated"), st1) ∧
  ∃ st2,
    App.handleGenerateNewVideo w fuel prompt aspectRatio image st
      = (Normal tt, st2) ∧
    videos (ui st2) = videos (ui st) ∧
    log st2 = log st1 ∧
    isSaving (ui st2) = false ∧
    App.errorModal (App.render (ui st2)) = Some failure_message ∧
    App.page (App.render (ui st2))
      = match editingVideo (ui st) with
        | Some video => App.EditForm video
        | None => App.Grid
        end ∧
    (reachable (ui st) ->
     App.page (App.render (ui st)) = App.GenerateForm ->
     App.page (App.render (ui st2)) = App.Grid) ∧
    ∀ originalVideo,
      prompt = description originalVideo ->
      aspectRatio = Landscape ->
      image = None ->
      ∃ st3,
        App.handleSaveEdit w fuel originalVideo st = (Normal tt, st3) ∧
        videos (ui st3) = videos (ui st) ∧
        log st3 = log st1 ∧
        isSaving (ui st3) = false ∧
        App.errorModal (App.render (ui st3)) = Some failure_message ∧
        App.page (App.render (ui st3))
          = (if isGeneratingNewVideo (ui st) then App.GenerateForm
             else App.Grid) ∧
        (∀ video,
           App.page (App.render (ui st)) = App.EditForm video ->
           App.page (App.render (ui st3)) = App.Grid).
Proof.
  intros Eop Hempty.
  assert (E : generateVideo w fuel prompt aspectRatio image 1 st
              = (Throw (Js.Error "No videos generated"), st1)).
  { rewrite generateVideo_stages, bind_run, Eop.
    by apply collect_empty. }
  split; [done |]. eexists. split.
  - eapply handleGenerateNewVideo_failure; eauto.
  - split_and!; try done.
    + intros Hreach Hform. unfold App.render in *. simpl.
      destruct (isSaving (ui st)); [done |]. simpl in Hform.
      destruct (isGeneratingNewVideo (ui st)) eqn:Hgen.
      * by destruct (reachable_form_alone _ Hreach Hgen) as [-> _].
      * by destruct (editingVideo (ui st)).
    + intros originalVideo -> -> ->. eexists. split.
      * eapply handleSaveEdit_failure; eauto.
      * split_and!; try done.
        intros video. unfold App.render. simpl.
        destruct (isSaving (ui st)); [done |]. simpl.
        by destruct (isGeneratingNewVideo (ui st)).
Qed.

(** C10. A remix confirmed from the editor submits the description of the
    original entry with the aspect ratio 16:9 and without an image field,
    whatever the original was generated with, and submits once. When the
    pipeline delivers, the new entry carries the description of the
    original and the title [Remix of], followed by the original title
    between double quotes. *)
Theorem C10_remix_request_and_entry originalVideo st :
  let params :=
    generateVideos_params (description originalVideo) Landscape None 1 in
  params =
    {[ "model" := Js.Str "veo-2.0-generate-001";
       "prompt" := Js.Str (description originalVideo);
       "config" := Js.Obj {[ "numberOfVideos" := Js.Num 1;
                             "aspectRatio" := Js.Str "16:9" ]} ]} ∧
  params !! "image" = None ∧
  (∃ later,
     log (App.handleSaveEdit w fuel originalVideo st).2
       = later ++ Submitted params :: log st ∧
     Forall (λ e, is_Submitted e = false) later) ∧
  (∀ videoSrc rest st1,
     generateVideo w fuel (description originalVideo) Landscape None 1 st
       = (Normal (videoSrc :: rest), st1) ->
     ∃ newVideo st2,
       App.handleSaveEdit w fuel originalVideo st = (Normal tt, st2) ∧
       videos (ui st2) = newVideo :: videos (ui st) ∧
       description newVideo = description originalVideo ∧
       title newVideo
         = "Remix of " +:+ Js.dquote +:+ title originalVideo +:+ Js.dquote ∧
       videoUrl newVideo = "data:video/mp4;base64," +:+ Js.template videoSrc ∧
       playingVideo (ui st2) = Some newVideo).
Proof.
  intros params. split_and!.
  - reflexivity.
  - reflexivity.
  - rewrite handleSaveEdit_run.
    destruct (generateVideo_store w fuel (description originalVideo) Landscape
                None 1 {| ui := started_remix (ui st); log := log st |})
      as (later & F & E).
    specialize (E (started_remix (ui st))). simpl in E. rewrite E.
    destruct (generateVideo _ _ _ _ _ _ _) as [[[|videoSrc rest]|e|] st1];
      simpl; try by exists later.
    exists (DrewUUID :: later). by split; [| constructor].
  - intros videoSrc rest st1 E. eexists _, _.
    split; [eapply handleSaveEdit_success; eassumption |].
    by repeat (split; [reflexivity |]).
Qed.

End HandlerClaims.

(** C9. Closing the error modal clears the error, so that no error overlay
    is shown, and changes nothing else: the gallery keeps its entries in
    their order, and no external call is made. *)
Theorem C9_dismiss_error_keeps_gallery st :
  ∃ st',
    App.ErrorModal_onClose st = (Normal tt, st') ∧
    generationError (ui st') = None ∧
    App.errorModal (App.render (ui st')) = None ∧
    videos (ui st') = videos (ui st) ∧
    playingVideo (ui st') = playingVideo (ui st) ∧
    editingVideo (ui st') = editingVideo (ui st) ∧
    isGeneratingNewVideo (ui st') = isGeneratingNewVideo (ui st) ∧
    isSaving (ui st') = isSaving (ui st) ∧
    log st' = log st.
Proof.
  eexists. split; [reflexivity |]. simpl. split_and!; try done.
  unfold App.render. simpl. by destruct (isSaving (ui st)).
Qed.

(** ** The claims about the request *)

(** C8. With an image, the argument of the submission has an [image]
    property that holds the encoded bytes and the media type of the image;
    without one it has no [image] property at all: its properties are the
    model, the prompt and the configuration. The pipeline submits exactly
    this argument. *)
Theorem C8_image_field_present_or_omitted prompt aspectRatio numberOfVideos :
  (∀ image,
     generateVideos_params prompt aspectRatio (Some image) numberOfVideos
       !! "image"
     = Some (Js.Obj {[ "imageBytes" := Js.Str (base64 image);
                       "mimeType" := Js.Str (mimeType image) ]})) ∧
  generateVideos_params prompt aspectRatio None numberOfVideos !! "image"
    = None ∧
  dom (generateVideos_params prompt aspectRatio None numberOfVideos)
    = {[ "model"; "prompt"; "config" ]} ∧
  (∀ image,
     dom (generateVideos_params prompt aspectRatio (Some image) numberOfVideos)
     = {[ "model"; "prompt"; "image"; "config" ]}) ∧
  (∀ w fuel image st,
     ∃ later,
       log (generateVideo w fuel prompt aspectRatio image numberOfVideos st).2
         = later ++
           Submitted (generateVideos_params prompt aspectRatio image
                        numberOfVideos) :: log st ∧
       Forall (λ e, is_Submitted e = false) later).
Proof.
  split_and!.
  - intros image. reflexivity.
  - reflexivity.
  - unfold generateVideos_params. simpl. rewrite !dom_insert_L, dom_singleton_L.
    set_solver.
  - intros image. unfold generateVideos_params. simpl.
    rewrite dom_insert_L, dom_union_L, dom_insert_L, !dom_singleton_L.
    set_solver.
  - intros w fuel image st.
    destruct (generateVideo_store w fuel prompt aspectRatio image
                numberOfVideos st) as (later & F & E).
    exists later. split; [| done].
    specialize (E (ui st)). rewrite store_eta in E. by rewrite E.
Qed.

(** ** The claims about the form *)

(** C7, as the code has it. When the prompt is blank, the button of the
    form is disabled and [handleGenerate] does nothing: [onGenerate] is not
    called, so that nothing is submitted, nothing is thrown, no error is
    shown, and the store is what it was. Otherwise the handler of [App] is
    called with the prompt as typed (not trimmed). The pipeline itself does
    not look at the prompt: whatever it is, the request is submitted. *)
Theorem C7_blank_prompt_is_ignored_by_the_form w fuel form st :
  (Js.trim (GenerateVideoPage.prompt form) = EmptyString ->
   GenerateVideoPage.generate_disabled form = true ∧
   App.GenerateVideoPage_generate w fuel form st = (Normal tt, st)) ∧
  (Js.trim (GenerateVideoPage.prompt form) ≠ EmptyString ->
   GenerateVideoPage.generate_disabled form = false ∧
   App.GenerateVideoPage_generate w fuel form st =
     App.handleGenerateNewVideo w fuel (GenerateVideoPage.prompt form)
       (GenerateVideoPage.aspectRatio form)
       ((λ image, {| base64 := GenerateVideoPage.base64 image;
                     mimeType := GenerateVideoPage.mimeType image |})
          <$> GenerateVideoPage.image form) st) ∧
  (∀ prompt aspectRatio image numberOfVideos,
     ∃ later,
       log (generateVideo w fuel prompt aspectRatio image numberOfVideos st).2
         = later ++
           Submitted (generateVideos_params prompt aspectRatio image
                        numberOfVideos) :: log st).
Proof.
  unfold App.GenerateVideoPage_generate, GenerateVideoPage.handleGenerate,
    GenerateVideoPage.generate_disabled.
  split_and!.
  - intros ->. done.
  - intros Hp. destruct (Js.trim _); done.
  - intros prompt aspectRatio image numberOfVideos.
    destruct (generateVideo_store w fuel prompt aspectRatio image
                numberOfVideos st) as (later & F & E).
    exists later. specialize (E (ui st)). rewrite store_eta in E.
    by rewrite E.
Qed.

(** ** The claims about the polling loop *)

Lemma count_cons kind e l :
  count kind (e :: l) = (if kind e then 1 else 0) + count kind l.
Proof.
  unfold count. rewrite filter_cons.
  destruct (kind e); by case_decide.
Qed.

Lemma count_app kind l1 l2 :
  count kind (l1 ++ l2) = count kind l1 + count kind l2.
Proof. unfold count. by rewrite filter_app, length_app. Qed.

(** Every turn of the loop holds one status query. *)
Lemma count_turns handles : count is_Queried (handles ≫= turn) = length handles.
Proof.
  induction handles as [|h hs IH]; [done |].
  cbn [mbind list_bind]. cbn [turn app length].
  rewrite !count_cons. cbn [is_Queried].
  change (list_bind _ _ turn hs) with (hs ≫= turn). lia.
Qed.

Section PollerClaims.
Context (w : World).

Lemma reaches_terminal n operation k final :
  reaches w n operation k final -> Js.truthy_flag (done final) = true.
Proof. induction 1; auto. Qed.

(** One turn of the loop on a handle that is not terminal. *)
Lemma while_not_done_turn fuel operation st :
  Js.truthy_flag (done operation) = false ->
  while_not_done w (S fuel) operation st =
    match getVideosOperation w (count is_Queried (log st)) operation with
    | inl e =>
        (Throw e,
         {| ui := ui st;
            log := Queried operation :: Waited 10000 :: log st |})
    | inr operation' =>
        while_not_done w fuel operation'
          {| ui := ui st;
             log := Queried operation :: Waited 10000 :: log st |}
    end.
Proof.
  intros Hd. simpl. rewrite Hd. unfold setTimeout.
  rewrite bind_run. simpl. rewrite bind_run, getVideosOperation_run. simpl.
  rewrite count_cons. simpl.
  by destruct (getVideosOperation w _ operation).
Qed.

Lemma while_not_done_sound fuel : ∀ operation st c st1,
  while_not_done w fuel operation st = (c, st1) ->
  ∃ k,
    count is_Queried (log st1) = count is_Queried (log st) + k ∧
    k ≤ fuel ∧
    match c with
    | Normal final => reaches w (count is_Queried (log st)) operation k final
    | Throw _ => 0 < k
    | Pending => k = fuel
    end.
Proof.
  induction fuel as [|fuel IH]; intros operation st c st1.
  - simpl. destruct (Js.truthy_flag (done operation)) eqn:Hd;
      intros [= <- <-]; exists 0; split_and!; try lia; try done.
    by constructor.
  - destruct (Js.truthy_flag (done operation)) eqn:Hd.
    + simpl. rewrite Hd. intros [= <- <-]. exists 0.
      split_and!; try lia. by constructor.
    + rewrite while_not_done_turn by done.
      destruct (getVideosOperation w _ operation) as [e|operation'] eqn:Eq.
      * intros [= <- <-]. exists 1. cbn [log]. rewrite !count_cons.
        cbn [is_Queried]. split_and!; lia.
      * intros E. apply IH in E as (k & Hk & Hle & Hc).
        cbn [log] in Hk, Hc. rewrite !count_cons in Hk, Hc.
        cbn [is_Queried] in Hk, Hc.
        exists (S k). split_and!; try lia.
        destruct c; try lia.
        eapply reaches_query; eauto.
Qed.

Lemma while_not_done_complete n operation k final :
  reaches w n operation k final ->
  ∀ fuel st,
    k ≤ fuel -> n = count is_Queried (log st) ->
    ∃ st1,
      while_not_done w fuel operation st = (Normal final, st1) ∧
      count is_Queried (log st1) = n + k.
Proof.
  induction 1 as [n operation Hd|n operation operation' k final Hd Eq _ IH];
    intros fuel st Hle ->.
  - exists st. split; [| lia]. destruct fuel; simpl; by rewrite Hd.
  - destruct fuel as [|fuel]; [lia |].
    rewrite while_not_done_turn, Eq by done.
    destruct (IH fuel {| ui := ui st;
                         log := Queried operation :: Waited 10000 :: log st |})
      as (st1 & E & Hn); [lia | cbn [log]; by rewrite !count_cons |].
    exists st1. split; [done | lia].
Qed.

(** The calls of a run of the loop: one turn per handle it queried. *)
Lemma while_not_done_log fuel : ∀ operation st c st1,
  while_not_done w fuel operation st = (c, st1) ->
  ∃ handles,
    st1 = {| ui := ui st; log := (handles ≫= turn) ++ log st |} ∧
    Forall (λ handle, Js.truthy_flag (done handle) = false) handles ∧
    length handles ≤ fuel ∧
    (handles ≠ [] -> last handles = Some operation).
Proof.
  induction fuel as [|fuel IH]; intros operation st c st1.
  - simpl. destruct (Js.truthy_flag (done operation));
      intros [= <- <-]; exists []; by rewrite store_eta.
  - destruct (Js.truthy_flag (done operation)) eqn:Hd.
    + simpl. rewrite Hd. intros [= <- <-]. exists [].
      rewrite store_eta. split_and!; try done. simpl. lia.
    + rewrite while_not_done_turn by done.
      destruct (getVideosOperation w _ operation) as [e|operation'].
      * intros [= <- <-]. exists [operation]. split_and!; try done.
        -- by constructor.
        -- simpl. lia.
      * intros E. apply IH in E as (handles & -> & Hall & Hlen & _).
        exists (handles ++ [operation]). cbn [ui log]. split_and!.
        -- by rewrite bind_app, <- app_assoc.
        -- apply Forall_app. split; [done | by constructor].
        -- rewrite length_app. simpl. lia.
        -- intros _. by rewrite last_snoc.
Qed.

(** C5, as the code has it. The loop tests the handle before it queries:
    it makes no status query when the submission already answered with a
    terminal handle, and otherwise one query per handle that is not
    terminal. It returns a handle only when that handle is terminal, after
    exactly the queries the service answered with handles that were not;
    it stops earlier only when a query is rejected; and whenever the
    service ends the job at some query, the loop, given that many turns,
    returns the terminal handle of that query. Every status query goes
    out right after a wait of ten seconds: what the loop adds to the log
    is one wait and one query for each handle it queried, and nothing
    else. *)
Theorem C5_poller_queries_until_terminal fuel operation st :
  (∀ c st1,
     while_not_done w fuel operation st = (c, st1) ->
     ∃ issued,
       count is_Queried (log st1) = count is_Queried (log st) + issued ∧
       match c with
       | Normal final =>
           Js.truthy_flag (done final) = true ∧
           reaches w (count is_Queried (log st)) operation issued final
       | Throw _ => 0 < issued
       | Pending => issued = fuel
       end) ∧
  (Js.truthy_flag (done operation) = true ->
   while_not_done w fuel operation st = (Normal operation, st)) ∧
  (∀ k final,
     reaches w (count is_Queried (log st)) operation k final ->
     k ≤ fuel ->
     ∃ st1,
       while_not_done w fuel operation st = (Normal final, st1) ∧
       count is_Queried (log st1) = count is_Queried (log st) + k) ∧
  (∀ c st1,
     while_not_done w fuel operation st = (c, st1) ->
     ∃ handles,
       log st1 = (handles ≫= turn) ++ log st ∧
       Forall (λ handle, Js.truthy_flag (done handle) = false) handles ∧
       count is_Queried (log st1)
         = count is_Queried (log st) + length handles).
Proof.
  split_and!.
  - intros c st1 E. apply while_not_done_sound in E as (k & Hk & _ & Hc).
    exists k. split; [done |]. destruct c; try done.
    split; [by eapply reaches_terminal | done].
  - intros Hd. destruct fuel; simpl; by rewrite Hd.
  - intros k final Hr Hle. by eapply while_not_done_complete.
  - intros c st1 E.
    apply while_not_done_log in E as (handles & -> & Hall & _).
    exists handles. cbn [log]. split_and!; try done.
    rewrite count_app, count_turns. lia.
Qed.

End PollerClaims.

(** ** The claims about the materialization of the assets *)

Section MaterializationClaims.
Context (w : World).

(** A reference whose fetch is refused has a rejected promise, whose reason
    names the status. *)
Lemma refused_promise g request res :
  request_url w g = inr request ->
  state (fetch w request) = inr res ->
  ok res = false ->
  state (promise_of w g)
    = inl (Js.Error ("Failed to fetch video: " +:+ pretty (status res)
                     +:+ " " +:+ statusText res)).
Proof.
  intros Hr Hf Hok. unfold promise_of, read_response. rewrite Hr. simpl.
  by rewrite Hf, Hok.
Qed.

(** A reference whose promise is fulfilled was fetched with success, and
    its value is the encoding of the body. *)
Lemma fulfilled_promise g a :
  state (promise_of w g) = inr a ->
  ∃ request res body,
    request_url w g = inr request ∧
    state (fetch w request) = inr res ∧
    ok res = true ∧
    state (blob res) = inr body ∧
    a = bloblToBase64 body.
Proof.
  unfold promise_of, read_response.
  destruct (request_url w g) as [e|request] eqn:Hr; [done |]. simpl.
  destruct (state (fetch w request)) as [e|res] eqn:Hf; [done |].
  destruct (ok res) eqn:Hok; [| done]. simpl.
  destruct (state (blob res)) as [e|body] eqn:Hb; [done |].
  intros [= <-]. by exists request, res, body.
Qed.

(** [Promise.all] is rejected with the reason of a promise that is
    rejected before every promise that is rejected with another reason. *)
Lemma Promise_all_earliest {A} (ps : list (Promise A)) p e :
  p ∈ ps ->
  state p = inl e ->
  (∀ q, q ∈ ps -> rejected q ->
        state q = inl e ∨ earlier (settled_at p) (settled_at q) = true) ->
  Promise_all ps = inl e.
Proof.
  intros Hin Hp Hfirst.
  destruct (Promise_all_fails ps p Hin) as [e' He'].
  { unfold rejected. by rewrite Hp. }
  rewrite He'.
  apply Promise_all_rejected in He' as (p' & Hin' & Hp' & Hmin).
  destruct (Hfirst p' Hin') as [Hsame|Hearlier].
  - unfold rejected. by rewrite Hp'.
  - rewrite Hp' in Hsame. by injection Hsame as ->.
  - rewrite Hmin in Hearlier; [done | done |].
    unfold rejected. by rewrite Hp.
Qed.

(** C6, as the code has it. For an operation with references, the last
    block of the pipeline requests every reference that has a URL, in
    order, whatever becomes of the others. If any fetch is refused, the
    pipeline throws: the reason of the promise that was rejected first,
    which is the error that names the refused status when the refusal
    comes before every other rejection, as it does for a sole reference.
    On success, each asset is the encoding of the body fetched for its
    reference: for a body whose media type has no comma, the bare base64
    payload, which is not a data URL. Each handler puts the fixed prefix
    [data:video/mp4;base64,] in front of the first asset, which makes the
    URL of the one entry it adds. *)
Theorem C6_every_reference_fetched_assets_bare operation g gs st :
  assetReferences operation = g :: gs ->
  ∃ c st1,
    collect w operation st = (c, st1) ∧
    ui st1 = ui st ∧
    log st1 = requests w (g :: gs) ++ log st ∧
    (∀ r request, r ∈ g :: gs -> request_url w r = inr request ->
                  Fetched request ∈ log st1) ∧
    (∀ r request res,
       r ∈ g :: gs ->
       request_url w r = inr request ->
       state (fetch w request) = inr res ->
       ok res = false ->
       (∃ e r',
          c = Throw e ∧
          r' ∈ g :: gs ∧
          state (promise_of w r') = inl e ∧
          ∀ q, q ∈ g :: gs -> rejected (promise_of w q) ->
               earlier (settled_at (promise_of w q))
                 (settled_at (promise_of w r')) = false) ∧
       ((∀ q, q ∈ g :: gs -> rejected (promise_of w q) ->
              q = r ∨
              earlier (settled_at (promise_of w r))
                (settled_at (promise_of w q)) = true) ->
        c = Throw (Js.Error ("Failed to fetch video: "
                             +:+ pretty (status res)
                             +:+ " " +:+ statusText res)))) ∧
    (gs = [] ->
     ∀ request res,
       request_url w g = inr request ->
       state (fetch w request) = inr res ->
       ok res = false ->
       c = Throw (Js.Error ("Failed to fetch video: " +:+ pretty (status res)
                            +:+ " " +:+ statusText res))) ∧
    (∀ assets,
       c = Normal assets ->
       Forall2
         (λ r a,
            ∃ request res body,
              request_url w r = inr request ∧
              state (fetch w request) = inr res ∧
              ok res = true ∧
              state (blob res) = inr body ∧
              a = bloblToBase64 body ∧
              (¬ occurs "," (blob_type body) ->
               a = Some (Js.base64 (blob_bytes body)) ∧
               ¬ tagged (Js.base64 (blob_bytes body))))
         (g :: gs) assets) ∧
    (∀ fuel prompt aspectRatio image st0 videoSrc rest st1',
       generateVideo w fuel prompt aspectRatio image 1 st0
         = (Normal (videoSrc :: rest), st1') ->
       ∃ newVideo st2,
         App.handleGenerateNewVideo w fuel prompt aspectRatio image st0
           = (Normal tt, st2) ∧
         videos (ui st2) = newVideo :: videos (ui st0) ∧
         videoUrl newVideo
           = "data:video/mp4;base64," +:+ Js.template videoSrc) ∧
    (∀ fuel originalVideo st0 videoSrc rest st1',
       generateVideo w fuel (description originalVideo) Landscape None 1 st0
         = (Normal (videoSrc :: rest), st1') ->
       ∃ newVideo st2,
         App.handleSaveEdit w fuel originalVideo st0 = (Normal tt, st2) ∧
         videos (ui st2) = newVideo :: videos (ui st0) ∧
         videoUrl newVideo
           = "data:video/mp4;base64," +:+ Js.template videoSrc).
Proof.
  intros Hrefs. rewrite (collect_run w operation g gs st Hrefs).
  eexists _, _. split; [reflexivity |]. cbn [ui log].
  split_and!; try done.
  - intros r request Hin Hr. apply elem_of_app. left.
    unfold requests. apply elem_of_reverse, list_elem_of_omap.
    exists r. by rewrite Hr.
  - intros r request res Hin Hr Hf Hok.
    pose proof (refused_promise r request res Hr Hf Hok) as Hrefused.
    split.
    + destruct (Promise_all_fails (promise_of w <$> g :: gs)
                  (promise_of w r)) as [e He].
      { by apply list_elem_of_fmap_2. }
      { unfold rejected. by rewrite Hrefused. }
      rewrite He.
      apply Promise_all_rejected in He as (p & Hp & Hstate & Hmin).
      apply list_elem_of_fmap in Hp as (r' & -> & Hr').
      exists e, r'. split_and!; try done.
      intros q Hq Hrej. apply Hmin; [by apply list_elem_of_fmap_2 | done].
    + intros Hfirst.
      rewrite (Promise_all_earliest (promise_of w <$> g :: gs)
                 (promise_of w r) _ (list_elem_of_fmap_2 _ _ _ Hin) Hrefused);
        [done |].
      intros p (q & -> & Hq)%list_elem_of_fmap Hrej.
      destruct (Hfirst q Hq Hrej) as [->|Hearlier]; [by left | by right].
  - intros -> request res Hr Hf Hok. unfold Promise_all. simpl.
    by erewrite refused_promise.
  - intros assets Hc.
    destruct (Promise_all _) as [e|assets'] eqn:Ea; [done |].
    injection Hc as <-. apply Promise_all_fulfilled in Ea.
    apply Forall2_fmap_l in Ea.
    eapply Forall2_impl; [exact Ea |]. intros r a Ha.
    apply fulfilled_promise in Ha
      as (request & res & body & Hr & Hf & Hok & Hb & ->).
    exists request, res, body. split_and!; try done.
    intros Htype.
    split; [by apply bloblToBase64_payload | apply base64_not_tagged].
  - intros fuel prompt aspectRatio image st0 videoSrc rest st1' E.
    eexists _, _. split; [by eapply handleGenerateNewVideo_success |].
    by split.
  - intros fuel originalVideo st0 videoSrc rest st1' E.
    eexists _, _. split; [by eapply handleSaveEdit_success |].
    by split.
Qed.

End MaterializationClaims.

(** ** The claims at work: runs in the worlds of [Scenario] *)

(** The scenario of the specification: the prompt [A cat in a hat], no
    image, one asset, a fetch that succeeds; then a second run. *)
Lemma C1_witness :
  ∃ V1 V2 st2 st4,
    App.handleGenerateNewVideo Scenario.ready 1 "A cat in a hat" Landscape
      None Scenario.start = (Normal tt, st2) ∧
    videos (ui st2) = [V1] ∧
    description V1 = "A cat in a hat" ∧
    title V1 = "Generated: A cat in a hat" ∧
    videoUrl V1 = "data:video/mp4;base64,aGk=" ∧
    playingVideo (ui st2) = Some V1 ∧
    App.handleGenerateNewVideo Scenario.ready 1
      "A dog that chases its own tail around a tree" Portrait None st2
      = (Normal tt, st4) ∧
    videos (ui st4) = [V2; V1].
Proof.
  edestruct (C1_success_prepends_one_video Scenario.ready 1 "A cat in a hat"
               Landscape None Scenario.start)
    as (V1 & st2 & H1 & H2 & H3 & H4 & H5 & H6 & _ & H8).
  { vm_compute. reflexivity. }
  assert (Hst2 := H1). vm_compute in Hst2. injection Hst2 as Hst2.
  edestruct (H8 "A dog that chases its own tail around a tree" Portrait None)
    as (V2 & st4 & H9 & H10 & _).
  { rewrite <- Hst2. vm_compute. reflexivity. }
  exists V1, V2, st2, st4. split_and!; assumption.
Defined.

(** The other scenario of the specification: the same submission, but the
    fetch is answered with 403; and a remix of an entry in that world. *)
Lemma C2_witness :
  ∃ st2 st2',
    App.handleGenerateNewVideo Scenario.forbidden 1 "A cat in a hat"
      Landscape None Scenario.at_form = (Normal tt, st2) ∧
    videos (ui st2) = [] ∧
    isSaving (ui st2) = false ∧
    App.errorModal (App.render (ui st2)) = Some failure_message ∧
    App.handleSaveEdit Scenario.forbidden 1 Scenario.cat Scenario.start
      = (Normal tt, st2') ∧
    videos (ui st2') = [] ∧
    isSaving (ui st2') = false.
Proof.
  destruct (C2_failure_keeps_gallery_and_leaves_progress Scenario.forbidden 1
              Scenario.at_form) as (Hgen & _ & Hend & _).
  destruct (C2_failure_keeps_gallery_and_leaves_progress Scenario.forbidden 1
              Scenario.start) as (_ & Hremix & _ & Hend').
  edestruct (Hgen "A cat in a hat" Landscape None)
    as (st2 & H1 & H2 & _ & _ & H5 & H6).
  { vm_compute. reflexivity. }
  edestruct (Hremix Scenario.cat) as (st2' & H1' & H2' & _).
  { vm_compute. reflexivity. }
  destruct (Hend _ _ _ _ _ H1) as [_ _]; [done |].
  destruct (Hend' _ _ _ H1') as [H5' _]; [done |].
  exists st2, st2'. split_and!; assumption.
Defined.

(** The refused fetch and the job without asset end in the same message. *)
Lemma C3_witness :
  generationError
    (ui (App.handleGenerateNewVideo Scenario.forbidden 1 "A cat in a hat"
           Landscape None Scenario.at_form).2)
  = generationError
      (ui (App.handleSaveEdit Scenario.empty 1 Scenario.cat Scenario.start).2).
Proof.
  pose proof (λ e st1, proj1 (C3_one_message_for_every_error
                                Scenario.forbidden 1 e st1 Scenario.at_form))
    as Hgen.
  pose proof (λ e st1, proj1 (proj2 (C3_one_message_for_every_error
                                       Scenario.empty 1 e st1 Scenario.start)))
    as Hremix.
  erewrite Hgen by (vm_compute; reflexivity).
  erewrite Hremix by (vm_compute; reflexivity).
  reflexivity.
Defined.

(** A job that ends without asset, submitted from the form: the run ends
    on the grid, not on the form. *)
Lemma C4_counterexample : ¬ empty_result_returns_to_prior_page.
Proof.
  intros H.
  edestruct (H Scenario.empty 1 "A cat in a hat" Landscape None
               Scenario.at_form) as (e & st2 & _ & H2 & _ & H4).
  { vm_compute. reflexivity. }
  { reflexivity. }
  vm_compute in H2. injection H2 as <-. vm_compute in H4. discriminate.
Qed.

Lemma C4_witness :
  ∃ st2 st3,
    App.handleGenerateNewVideo Scenario.empty 1 "A cat in a hat" Landscape
      None Scenario.at_form = (Normal tt, st2) ∧
    videos (ui st2) = [] ∧
    App.errorModal (App.render (ui st2)) = Some failure_message ∧
    App.page (App.render (ui st2)) = App.Grid ∧
    App.handleSaveEdit Scenario.empty 1 Scenario.cat Scenario.at_editor
      = (Normal tt, st3) ∧
    videos (ui st3) = [Scenario.cat] ∧
    App.errorModal (App.render (ui st3)) = Some failure_message ∧
    App.page (App.render (ui st3)) = App.Grid.
Proof.
  edestruct (C4_empty_result_fails_and_shows_grid Scenario.empty 1
               "A cat in a hat" Landscape None Scenario.at_form)
    as (_ & st2 & H1 & H2 & _ & _ & H5 & _ & H7 & _).
  { vm_compute. reflexivity. }
  { reflexivity. }
  edestruct (C4_empty_result_fails_and_shows_grid Scenario.empty 1
               "A cat in a hat" Landscape None Scenario.at_editor)
    as (_ & _ & _ & _ & _ & _ & _ & _ & _ & Hremix).
  { vm_compute. reflexivity. }
  { reflexivity. }
  destruct (Hremix Scenario.cat eq_refl eq_refl eq_refl)
    as (st3 & R1 & R2 & _ & _ & R5 & _ & R7).
  exists st2, st3. split_and!; try assumption.
  - apply H7; [| reflexivity].
    eapply (reachable_step App.initial App.handleStartGenerate []).
    + apply reachable_initial.
    + by apply offer_start_generate.
    + reflexivity.
  - by apply (R7 Scenario.cat).
Defined.

(** A submission that is answered with a finished job: the pipeline
    returns without a single status query. *)
Lemma C5_counterexample : ¬ poller_always_queries.
Proof.
  intros H.
  specialize (H Scenario.immediate 0 "A cat in a hat" Landscape None 1
                Scenario.start _ _ eq_refl).
  vm_compute in H. lia.
Qed.

(** The job that ends at the third status query. *)
Lemma C5_witness :
  ∃ st1 handles,
    while_not_done Scenario.delivered 3 Scenario.waiting Scenario.start
      = (Normal (Scenario.finished ["https://veo.example/1?alt=media"]), st1) ∧
    count is_Queried (log st1) = 3 ∧
    log st1 = handles ≫= turn ∧
    length handles = 3.
Proof.
  destruct (C5_poller_queries_until_terminal Scenario.delivered 3
              Scenario.waiting Scenario.start) as (_ & _ & Hlive & Hlog).
  destruct (Hlive 3 (Scenario.finished ["https://veo.example/1?alt=media"]))
    as (st1 & E & Hq).
  - repeat (eapply reaches_query; [reflexivity | reflexivity |]).
    by apply reaches_done.
  - lia.
  - destruct (Hlog _ _ E) as (handles & Hl & _ & Hc).
    change (count is_Queried (log st1) = 0 + 3) in Hq.
    change (count is_Queried (log st1) = 0 + length handles) in Hc.
    exists st1, handles. split_and!; [exact E | exact Hq | | lia].
    rewrite Hl. apply app_nil_r.
Defined.

(** Two assets: both are bare payloads. Two assets of which one is refused
    after the connection for the other broke: the error is not the one that
    names the refused status. Two assets of which the second alone is
    refused: both are requested, and the error names the status; and so
    it does when the body of the first is lost after the refusal. *)
Lemma C6_counterexample :
  ¬ every_asset_is_tagged ∧ ¬ refused_fetch_is_the_error.
Proof.
  split; intros H.
  - specialize (H Scenario.twofold
                  (Scenario.finished ["https://veo.example/1?alt=media";
                                      "https://veo.example/2?alt=media"])
                  Scenario.start _ _ eq_refl).
    apply Forall_cons in H as [(s & [= <-] & Hs) _].
    by apply (base64_not_tagged [Byte.x68; Byte.x69]).
  - specialize (H Scenario.broken
                  (Scenario.finished ["https://veo.example/1?alt=media";
                                      "https://veo.example/2?alt=media"])
                  Scenario.start _ _
                  {| video := Some {| uri := Some "https://veo.example/2?alt=media" |} |}
                  "https://veo.example/2?alt=media&key=KEY"
                  {| ok := false;
                     status := 403;
                     statusText := "Forbidden";
                     blob := Scenario.body |}
                  eq_refl).
    specialize (H ltac:(set_solver) eq_refl eq_refl eq_refl).
    vm_compute in H. discriminate.
Qed.

Lemma C6_witness :
  ∃ st1 st1',
    collect Scenario.second_refused
      (Scenario.finished ["https://veo.example/1?alt=media";
                          "https://veo.example/2?alt=media"]) Scenario.start
    = (Throw (Js.Error "Failed to fetch video: 403 Forbidden"), st1) ∧
    log st1 = [Fetched "https://veo.example/2?alt=media&key=KEY";
               Fetched "https://veo.example/1?alt=media&key=KEY"] ∧
    collect Scenario.late_loss
      (Scenario.finished ["https://veo.example/1?alt=media";
                          "https://veo.example/2?alt=media"]) Scenario.start
    = (Throw (Js.Error "Failed to fetch video: 403 Forbidden"), st1').
Proof.
  edestruct (C6_every_reference_fetched_assets_bare Scenario.second_refused
               (Scenario.finished ["https://veo.example/1?alt=media";
                                   "https://veo.example/2?alt=media"]))
    as (c & st1 & H1 & _ & H3 & _ & H5 & _).
  { reflexivity. }
  edestruct (C6_every_reference_fetched_assets_bare Scenario.late_loss
               (Scenario.finished ["https://veo.example/1?alt=media";
                                   "https://veo.example/2?alt=media"]))
    as (c' & st1' & H1' & _ & _ & _ & H5' & _).
  { reflexivity. }
  exists st1, st1'. rewrite H1, H3, H1'. split_and!; [| reflexivity |].
  - destruct (H5 {| video :=
                      Some {| uri := Some "https://veo.example/2?alt=media" |}
                 |}
                "https://veo.example/2?alt=media&key=KEY"
                {| ok := false;
                   status := 403;
                   statusText := "Forbidden";
                   blob := Scenario.body |}) as [_ Hfirst];
      [apply list_elem_of_further, list_elem_of_here | reflexivity..|].
    rewrite Hfirst; [reflexivity |].
    intros q [->|Hq%list_elem_of_singleton]%elem_of_cons Hrej;
      [destruct Hrej | by left].
  - destruct (H5' {| video :=
                       Some {| uri := Some "https://veo.example/2?alt=media" |}
                  |}
                "https://veo.example/2?alt=media&key=KEY"
                {| ok := false;
                   status := 403;
                   statusText := "Forbidden";
                   blob := Scenario.body |}) as [_ Hfirst];
      [apply list_elem_of_further, list_elem_of_here | reflexivity..|].
    rewrite Hfirst; [reflexivity |].
    intros q [->|Hq%list_elem_of_singleton]%elem_of_cons Hrej;
      [right; reflexivity | by left].
Defined.

(** A blank prompt: the pipeline submits it, and the form neither throws
    nor reports anything. *)
Lemma C7_counterexample :
  ¬ request_builder_rejects_blank_prompt ∧ ¬ form_reports_blank_prompt.
Proof.
  split; intros H.
  - destruct (H Scenario.ready 1 "  " Landscape None 1 Scenario.start eq_refl)
      as (e & st1 & H1 & _).
    vm_compute in H1. discriminate.
  - destruct (H Scenario.ready 1
                {| GenerateVideoPage.prompt := "  ";
                   GenerateVideoPage.aspectRatio := Landscape;
                   GenerateVideoPage.image := None |}
                Scenario.at_form eq_refl) as [(e & st1 & H1)|[m Hm]].
    + vm_compute in H1. discriminate.
    + vm_compute in Hm. discriminate.
Qed.

Lemma C7_witness :
  App.GenerateVideoPage_generate Scenario.ready 1
    {| GenerateVideoPage.prompt := "  ";
       GenerateVideoPage.aspectRatio := Landscape;
       GenerateVideoPage.image := None |}
    Scenario.at_form
  = (Normal tt, Scenario.at_form) ∧
  (App.GenerateVideoPage_generate Scenario.ready 1
     {| GenerateVideoPage.prompt := " A cat in a hat ";
        GenerateVideoPage.aspectRatio := Landscape;
        GenerateVideoPage.image := None |}
     Scenario.at_form).2
  = (App.handleGenerateNewVideo Scenario.ready 1 " A cat in a hat " Landscape
       None Scenario.at_form).2.
Proof.
  split.
  - by apply (C7_blank_prompt_is_ignored_by_the_form Scenario.ready 1).
  - edestruct (C7_blank_prompt_is_ignored_by_the_form Scenario.ready 1)
      as (_ & Hcall & _).
    destruct Hcall as [_ ->]; [| reflexivity]. by vm_compute.
Defined.

(** A remix of the cat entry. *)
Lemma C10_witness :
  ∃ newVideo st2,
    App.handleSaveEdit Scenario.ready 1 Scenario.cat Scenario.start
      = (Normal tt, st2) ∧
    videos (ui st2) = [newVideo] ∧
    description newVideo = "A cat in a hat" ∧
    String.length (title newVideo) = 36.
Proof.
  edestruct (C10_remix_request_and_entry Scenario.ready 1 Scenario.cat
               Scenario.start) as (_ & _ & _ & Hsuccess).
  edestruct Hsuccess as (newVideo & st2 & H1 & H2 & H3 & H4 & _).
  { vm_compute. reflexivity. }
  exists newVideo, st2. split_and!; try assumption. by rewrite H4.
Defined.

(** * Further properties *)

(** ** The pipeline: what it calls, and when *)

Lemma count_none kind (P : Event -> Prop) l :
  (∀ e, P e -> kind e = false) -> Forall P l -> count kind l = 0.
Proof.
  intros HP. induction 1 as [|e l He _ IH]; [done |].
  by rewrite count_cons, (HP e He), IH.
Qed.

Lemma length_omap_le {A B} (f : A -> option B) l :
  length (omap f l) ≤ length l.
Proof.
  induction l as [|a l IH]; [done |].
  change (omap f (a :: l)) with (match f a with
                                 | Some b => b :: omap f l
                                 | None => omap f l
                                 end).
  destruct (f a); simpl; lia.
Qed.

(** A computation that makes no call of some kind leaves the number of
    calls of that kind as it was. *)
Lemma only_calls_count {A} (P : Event -> Prop) kind (m : Async A) st :
  only_calls P m ->
  (∀ e, P e -> kind e = false) ->
  count kind (log (m st).2) = count kind (log st).
Proof.
  intros Hm HP. destruct (only_calls_store P m st Hm) as (new & F & ->).
  cbn [log]. by rewrite count_app, (count_none kind P new).
Qed.

Section PipelineCalls.
Context (w : World).

Lemma terminal_operation_run fuel params st :
  terminal_operation w fuel params st =
    match generateVideos w (count is_Submitted (log st)) params with
    | inl e => (Throw e, {| ui := ui st; log := Submitted params :: log st |})
    | inr operation =>
        while_not_done w fuel operation
          {| ui := ui st; log := Submitted params :: log st |}
    end.
Proof.
  unfold terminal_operation. rewrite bind_run, generateVideos_run.
  by destruct (generateVideos w _ params).
Qed.

Lemma terminal_operation_only_calls fuel params :
  only_calls (λ e, is_Fetched e = false ∧ is_DrewUUID e = false)
    (terminal_operation w fuel params).
Proof.
  unfold terminal_operation, ai_models_generateVideos.
  apply only_calls_bind.
  - apply only_calls_bind; [apply only_calls_so_far | intros n].
    apply only_calls_bind; [by apply only_calls_emit | intros _].
    apply only_calls_await.
  - intros operation.
    eapply only_calls_weaken; [| apply while_not_done_only_calls].
    by intros [].
Qed.

Lemma generateVideo_only_calls fuel prompt aspectRatio image numberOfVideos :
  only_calls pipeline_event
    (generateVideo w fuel prompt aspectRatio image numberOfVideos).
Proof.
  intros st. destruct (only_calls_bind pipeline_event
    (terminal_operation w fuel
       (generateVideos_params prompt aspectRatio image numberOfVideos))
    (collect w)) with (st := st) as (new & F & E).
  - eapply only_calls_weaken; [| apply terminal_operation_only_calls].
    by intros e [_ ?].
  - intros operation.
    eapply only_calls_weaken; [| apply collect_only_calls]. by intros [].
  - exists new. split; [done |]. intros u.
    rewrite !generateVideo_stages. apply E.
Qed.

(** X3. Whatever becomes of a run of the polling loop, the calls it has
    made are a wait of ten seconds followed by a status query, once for
    each handle it held that was not terminal, and nothing else: a query
    never goes out without the wait before it, and the first handle it
    queries is the one the submission returned. *)
Theorem X3_each_query_follows_a_wait fuel operation st :
  ∃ handles,
    (while_not_done w fuel operation st).2
      = {| ui := ui st; log := (handles ≫= turn) ++ log st |} ∧
    Forall (λ handle, Js.truthy_flag (done handle) = false) handles ∧
    (handles ≠ [] -> last handles = Some operation) ∧
    count is_Queried (log (while_not_done w fuel operation st).2)
      = count is_Queried (log st) + length handles ∧
    length handles ≤ fuel.
Proof.
  destruct (while_not_done w fuel operation st) as [c st1] eqn:E.
  apply while_not_done_log in E as (handles & -> & Hall & Hlen & Hlast).
  exists handles. cbn [snd log]. split_and!; try done.
  rewrite count_app, count_turns. lia.
Qed.

Lemma while_not_done_rejects n operation k e :
  rejects w n operation k e ->
  ∀ fuel st,
    k ≤ fuel -> n = count is_Queried (log st) ->
    ∃ st1,
      while_not_done w fuel operation st = (Throw e, st1) ∧
      count is_Queried (log st1) = n + k.
Proof.
  induction 1 as [n operation e Hd Eq|n operation operation' k e Hd Eq _ IH];
    intros fuel st Hle ->.
  - destruct fuel as [|fuel]; [lia |].
    rewrite while_not_done_turn, Eq by done. eexists. split; [done |].
    cbn [log]. rewrite !count_cons. cbn [is_Queried]. lia.
  - destruct fuel as [|fuel]; [lia |].
    rewrite while_not_done_turn, Eq by done.
    destruct (IH fuel {| ui := ui st;
                         log := Queried operation :: Waited 10000 :: log st |})
      as (st1 & E & Hn); [lia | cbn [log]; by rewrite !count_cons |].
    exists st1. split; [done | lia].
Qed.

(** X1. A submission that the service rejects ends the pipeline with the
    reason of the rejection, and the submission is the only call made: it
    is not repeated, nothing is waited for, queried or fetched. *)
Theorem X1_rejected_submission_is_not_retried
    fuel prompt aspectRatio image numberOfVideos st e :
  generateVideos w (count is_Submitted (log st))
    (generateVideos_params prompt aspectRatio image numberOfVideos) = inl e ->
  generateVideo w fuel prompt aspectRatio image numberOfVideos st =
    (Throw e,
     {| ui := ui st;
        log := Submitted (generateVideos_params prompt aspectRatio image
                            numberOfVideos) :: log st |}).
Proof.
  intros Es. rewrite generateVideo_stages, bind_run, terminal_operation_run.
  by rewrite Es.
Qed.

(** X2. A status query that the service rejects ends the pipeline at once
    with the reason of the rejection: after the queries answered before it
    and this one, no further query is made, and no asset is fetched. *)
Theorem X2_rejected_query_is_not_retried
    fuel prompt aspectRatio image numberOfVideos st operation k e :
  generateVideos w (count is_Submitted (log st))
    (generateVideos_params prompt aspectRatio image numberOfVideos)
    = inr operation ->
  rejects w (count is_Queried (log st)) operation k e ->
  k ≤ fuel ->
  ∃ st1,
    generateVideo w fuel prompt aspectRatio image numberOfVideos st
      = (Throw e, st1) ∧
    count is_Queried (log st1) = count is_Queried (log st) + k ∧
    count is_Fetched (log st1) = count is_Fetched (log st).
Proof.
  intros Es Hrej Hle.
  set (params := generateVideos_params _ _ _ _) in *.
  destruct (while_not_done_rejects _ _ _ _ Hrej fuel
              {| ui := ui st; log := Submitted params :: log st |})
    as (st1 & E & Hn); [done | cbn [log]; by rewrite count_cons |].
  assert (Et : terminal_operation w fuel params st = (Throw e, st1)).
  { by rewrite terminal_operation_run, Es. }
  exists st1. split_and!.
  - rewrite generateVideo_stages, bind_run. fold params. by rewrite Et.
  - done.
  - pose proof (only_calls_count _ is_Fetched _ st
                  (terminal_operation_only_calls fuel params)) as Hc.
    rewrite Et in Hc. apply Hc. by intros e' [? _].
Qed.

(** X4. The pipeline never returns an empty list: when it returns, the job
    ended with a terminal operation that has references, and there are as
    many assets as references. The test for an empty list that both
    handlers make on the result never succeeds. *)
Theorem X4_assets_match_references
    fuel prompt aspectRatio image numberOfVideos st assets st1 :
  generateVideo w fuel prompt aspectRatio image numberOfVideos st
    = (Normal assets, st1) ->
  ∃ operation st0,
    terminal_operation w fuel
      (generateVideos_params prompt aspectRatio image numberOfVideos) st
      = (Normal operation, st0) ∧
    Js.truthy_flag (done operation) = true ∧
    length assets = length (assetReferences operation) ∧
    assets ≠ [].
Proof.
  rewrite generateVideo_stages, bind_run.
  set (params := generateVideos_params _ _ _ _).
  destruct (terminal_operation w fuel params st) as [[operation|e|] st0] eqn:Et;
    try done.
  intros E. exists operation, st0.
  assert (Hd : Js.truthy_flag (done operation) = true).
  { rewrite terminal_operation_run in Et.
    destruct (generateVideos w _ params) as [e|operation0]; [done |].
    apply while_not_done_sound in Et as (k & _ & _ & Hr).
    by eapply reaches_terminal. }
  destruct (assetReferences operation) as [|g gs] eqn:Hrefs.
  { by rewrite collect_empty in E. }
  rewrite (collect_run _ _ g gs) in E by done.
  destruct (Promise_all _) as [e|assets'] eqn:Ea; [done |].
  injection E as <- _. apply Promise_all_fulfilled in Ea.
  apply Forall2_length in Ea. rewrite length_fmap in Ea.
  split_and!; try done.
  intros ->. done.
Qed.

(** X5. The pipeline fetches nothing before the job has ended: a run in
    which a fetch was made is a run whose polling ended with a terminal
    operation that has references, and it made at most one fetch for each
    of them. *)
Theorem X5_no_fetch_before_the_end
    fuel prompt aspectRatio image numberOfVideos st :
  let run :=
    generateVideo w fuel prompt aspectRatio image numberOfVideos st in
  count is_Fetched (log st) < count is_Fetched (log run.2) ->
  ∃ operation st0,
    terminal_operation w fuel
      (generateVideos_params prompt aspectRatio image numberOfVideos) st
      = (Normal operation, st0) ∧
    Js.truthy_flag (done operation) = true ∧
    assetReferences operation ≠ [] ∧
    count is_Fetched (log run.2)
      ≤ count is_Fetched (log st) + length (assetReferences operation).
Proof.
  intros run. subst run. rewrite generateVideo_stages, bind_run.
  set (params := generateVideos_params _ _ _ _).
  pose proof (only_calls_count _ is_Fetched _ st
                (terminal_operation_only_calls fuel params)) as Hc.
  destruct (terminal_operation w fuel params st) as [[operation|e|] st0] eqn:Et;
    cbn [snd] in *; try (rewrite Hc by (by intros e' [? _]); lia).
  rewrite <- Hc by (by intros e' [? _]). intros Hlt.
  exists operation, st0.
  assert (Hd : Js.truthy_flag (done operation) = true).
  { rewrite terminal_operation_run in Et.
    destruct (generateVideos w _ params) as [e|operation0]; [done |].
    apply while_not_done_sound in Et as (k & _ & _ & Hr).
    by eapply reaches_terminal. }
  destruct (assetReferences operation) as [|g gs] eqn:Hrefs.
  { rewrite collect_empty in Hlt by done. simpl in Hlt. lia. }
  rewrite (collect_run _ _ g gs) by done. cbn [snd log].
  split_and!; try done. rewrite count_app.
  assert (count is_Fetched (requests w (g :: gs)) ≤ length (g :: gs)); [| lia].
  unfold count, requests. etrans; [apply length_filter |].
  rewrite length_reverse. apply length_omap_le.
Qed.

End PipelineCalls.

(** ** The encoding of a body *)

Lemma append_assoc a b c : (a +:+ b) +:+ c = a +:+ b +:+ c.
Proof. induction a; [done |]. rewrite !append_cons. by f_equal. Qed.

Lemma split_nonempty sep s : ∃ piece pieces, Js.split sep s = piece :: pieces.
Proof.
  induction s as [|a s (piece & pieces & IH)]; simpl; [by eexists _, _ |].
  case_bool_decide; [by eexists _, _ |]. rewrite IH. by eexists _, _.
Qed.

(** The first piece of a string that goes on behind a separator is the
    first piece of what stands before that separator. *)
Lemma split_head sep a b :
  head (Js.split sep (a +:+ String sep b)) = head (Js.split sep a).
Proof.
  induction a as [|c a IH].
  - change (EmptyString +:+ String sep b) with (String sep b). simpl.
    by rewrite bool_decide_true.
  - rewrite append_cons. simpl. case_bool_decide; [done |].
    destruct (split_nonempty sep (a +:+ String sep b)) as (p1 & ps1 & E1).
    destruct (split_nonempty sep a) as (p2 & ps2 & E2).
    rewrite E1, E2 in *. simpl in *. by injection IH as ->.
Qed.

(** A code unit occurs in a string or not; when it does, the string falls
    into what stands before its first occurrence and what stands behind. *)
Lemma occurs_first c s :
  ¬ occurs c s ∨ ∃ s1 s2, s = s1 +:+ String c s2 ∧ ¬ occurs c s1.
Proof.
  induction s as [|a s IH]; simpl; [left; tauto |].
  destruct (decide (a = c)) as [->|Hne].
  - right. exists EmptyString, s. split; [done | simpl; tauto].
  - destruct IH as [Hfree|(s1 & s2 & -> & Hfree)].
    + left. tauto.
    + right. exists (String a s1), s2. split; [done |]. simpl. tauto.
Qed.

(** The second piece of a data URL whose media type holds a comma. *)
Lemma bloblToBase64_comma t1 t2 bytes :
  ¬ occurs "," t1 ->
  bloblToBase64 {| blob_type := t1 +:+ String "," t2; blob_bytes := bytes |}
    = head (Js.split "," (t2 +:+ ";base64")).
Proof.
  intros Hfree. unfold bloblToBase64, readAsDataURL. cbn [blob_type blob_bytes].
  rewrite (append_assoc t1), (append_cons "," t2),
    <- (append_assoc "data:" t1).
  rewrite split_app.
  - change (";base64," +:+ Js.base64 bytes)
      with (";base64" +:+ String "," (Js.base64 bytes)).
    rewrite <- append_assoc.
    change ((?x :: ?l) !! 1) with (l !! 0). rewrite <- head_lookup.
    apply split_head.
  - rewrite occurs_app. simpl. intros H. by decompose [or] H.
Qed.

(** A data URL always has a second piece behind its first comma. *)
Lemma data_url_has_payload body :
  is_Some (Js.split "," (readAsDataURL body) !! 1).
Proof.
  change (is_Some (bloblToBase64 body)). destruct body as [type bytes].
  destruct (occurs_first "," type) as [H|(t1 & t2 & -> & H)].
  - by rewrite bloblToBase64_payload.
  - rewrite bloblToBase64_comma by done.
    by destruct (split_nonempty "," (t2 +:+ ";base64")) as (? & ? & ->).
Qed.

(** X7. [bloblToBase64] always has a second piece to return, so that its
    result is never [undefined]. For a body whose media type has no comma
    the result is the base64 payload, and the URL the handlers build from
    it is the data URL of the same bytes labelled [video/mp4], which is the
    data URL of the body itself when that is its type. For a body whose
    media type has a comma the result is a piece of the media type: it is
    the same whatever the bytes are, and the payload is lost. *)
Theorem X7_encoding_of_a_body body :
  is_Some (bloblToBase64 body) ∧
  (¬ occurs "," (blob_type body) ->
   bloblToBase64 body = Some (Js.base64 (blob_bytes body)) ∧
   "data:video/mp4;base64," +:+ Js.template (bloblToBase64 body)
     = readAsDataURL {| blob_type := "video/mp4";
                        blob_bytes := blob_bytes body |}) ∧
  (blob_type body = "video/mp4" ->
   "data:video/mp4;base64," +:+ Js.template (bloblToBase64 body)
     = readAsDataURL body) ∧
  (occurs "," (blob_type body) ->
   ∀ bytes,
     bloblToBase64 {| blob_type := blob_type body; blob_bytes := bytes |}
       = bloblToBase64 body).
Proof.
  assert (Hfree : ¬ occurs "," (blob_type body) ->
            "data:video/mp4;base64," +:+ Js.template (bloblToBase64 body)
            = readAsDataURL {| blob_type := "video/mp4";
                               blob_bytes := blob_bytes body |}).
  { intros H. by rewrite bloblToBase64_payload. }
  destruct body as [type bytes]. cbn [blob_type blob_bytes] in *.
  split_and!.
  - apply data_url_has_payload.
  - intros H. split; [by apply bloblToBase64_payload | by apply Hfree].
  - intros ->. apply Hfree. simpl. intros H. by decompose [or] H.
  - intros Hc bytes'.
    destruct (occurs_first "," type) as [H|(t1 & t2 & -> & H)]; [done |].
    by rewrite !bloblToBase64_comma.
Qed.

(** ** The pipeline: references that cannot be fetched, and runs that
    deliver *)

Lemma length_omap_lt {A B} (f : A -> option B) l x :
  x ∈ l -> f x = None -> length (omap f l) < length l.
Proof.
  induction 1 as [x l|x y l _ IH]; intros Hx.
  - change (omap f (x :: l)) with (match f x with
                                   | Some b => b :: omap f l
                                   | None => omap f l
                                   end).
    rewrite Hx. pose proof (length_omap_le f l). simpl. lia.
  - change (omap f (y :: l)) with (match f y with
                                   | Some b => b :: omap f l
                                   | None => omap f l
                                   end).
    specialize (IH Hx). destruct (f y); simpl; lia.
Qed.

Lemma requests_fetch_events w l : Forall fetch_event (requests w l).
Proof.
  unfold requests. apply Forall_reverse, Forall_forall.
  intros e [r [_ Hr]]%list_elem_of_omap.
  destruct (request_url w r); by simplify_eq.
Qed.

Lemma requests_all w l :
  (∀ r, r ∈ l -> ∃ request, request_url w r = inr request) ->
  count is_Fetched (requests w l) = length l.
Proof.
  induction l as [|g gs IH]; intros Hall; [done |].
  rewrite requests_cons, count_app, IH by (intros r Hr; apply Hall; set_solver).
  destruct (Hall g) as [request Hg]; [set_solver |].
  assert (count is_Fetched (requests w [g]) = 1) as ->; [| simpl; lia].
  unfold requests. simpl. rewrite Hg. reflexivity.
Qed.

Lemma turns_polling_events handles : Forall polling_event (handles ≫= turn).
Proof.
  induction handles as [|h hs IH]; [constructor |].
  cbn [mbind list_bind]. by repeat constructor.
Qed.

Section Deliveries.
Context (w : World).

(** X6. A reference without [video] cannot be fetched: no request is made
    for it, the requests for the other references are made all the same,
    and the pipeline throws. When no other promise is rejected, what it
    throws is the type error of the property access. *)
Theorem X6_reference_without_video operation g gs st r :
  assetReferences operation = g :: gs ->
  r ∈ g :: gs ->
  video r = None ->
  ∃ e st1,
    collect w operation st = (Throw e, st1) ∧
    (∀ r' request, r' ∈ g :: gs -> request_url w r' = inr request ->
                   Fetched request ∈ log st1) ∧
    count is_Fetched (log st1) < count is_Fetched (log st) + length (g :: gs) ∧
    ((∀ r', r' ∈ g :: gs -> is_Some (video r') ->
            ¬ rejected (promise_of w r')) ->
     ∃ message, e = Js.TypeError message).
Proof.
  intros Hrefs Hr Hvideo. rewrite (collect_run w operation g gs st Hrefs).
  assert (Hrej : rejected (promise_of w r)).
  { unfold rejected, promise_of, request_url. by rewrite Hvideo. }
  destruct (Promise_all_fails (promise_of w <$> g :: gs) (promise_of w r))
    as [e He]; [by apply list_elem_of_fmap_2 | done |].
  rewrite He. eexists _, _. split; [reflexivity |]. cbn [log]. split_and!.
  - intros r' request Hin Hr'. apply elem_of_app. left.
    unfold requests. apply elem_of_reverse, list_elem_of_omap.
    exists r'. by rewrite Hr'.
  - rewrite count_app.
    assert (count is_Fetched (requests w (g :: gs)) < length (g :: gs));
      [| lia].
    unfold count, requests. eapply Nat.le_lt_trans; [apply length_filter |].
    rewrite length_reverse. apply (length_omap_lt _ _ r); [done |].
    unfold request_url. by rewrite Hvideo.
  - intros Hothers.
    apply Promise_all_rejected in He as (p & Hp & Hstate & _).
    apply list_elem_of_fmap in Hp as (r' & -> & Hr').
    destruct (video r') as [file|] eqn:Hv.
    + destruct (Hothers r' Hr'); [by rewrite Hv |].
      unfold rejected. by rewrite Hstate.
    + unfold promise_of, request_url in Hstate. rewrite Hv in Hstate.
      injection Hstate as <-. by eexists.
Qed.

(** X8. A run that delivers, told from what the world answers: when the
    submission is accepted, the job ends at some status query within the
    turns of the run, the last operation has references, and no promise
    of the callback is rejected, the handler of the form returns, having
    made as many status queries as the job took and one fetch per
    reference; the gallery has one more entry in front, whose identifier
    is the next one drawn and whose URL is the fixed prefix and what
    [bloblToBase64] makes of the first body: when the media type of that
    body has no comma, the data URL of its bytes, labelled [video/mp4]. *)
Theorem X8_accepted_job_is_delivered
    fuel prompt aspectRatio image st operation k final g gs request res body :
  generateVideos w (count is_Submitted (log st))
    (generateVideos_params prompt aspectRatio image 1) = inr operation ->
  reaches w (count is_Queried (log st)) operation k final ->
  k ≤ fuel ->
  assetReferences final = g :: gs ->
  (∀ r, r ∈ g :: gs -> ¬ rejected (promise_of w r)) ->
  request_url w g = inr request ->
  state (fetch w request) = inr res ->
  state (blob res) = inr body ->
  ∃ newVideo st2,
    App.handleGenerateNewVideo w fuel prompt aspectRatio image st
      = (Normal tt, st2) ∧
    videos (ui st2) = newVideo :: videos (ui st) ∧
    id newVideo = randomUUID w (count is_DrewUUID (log st)) ∧
    videoUrl newVideo
      = "data:video/mp4;base64," +:+ Js.template (bloblToBase64 body) ∧
    (¬ occurs "," (blob_type body) ->
     videoUrl newVideo
       = readAsDataURL {| blob_type := "video/mp4";
                          blob_bytes := blob_bytes body |}) ∧
    count is_Queried (log st2) = count is_Queried (log st) + k ∧
    count is_Fetched (log st2)
      = count is_Fetched (log st) + length (g :: gs).
Proof.
  intros Es Hreach Hle Hrefs Hall Hg Hf Hb.
  set (params := generateVideos_params prompt aspectRatio image 1) in *.
  set (st_s := {| ui := ui st; log := Submitted params :: log st |}).
  destruct (while_not_done_complete w _ _ _ _ Hreach fuel st_s)
    as (st0 & Ew & Hq); [done | unfold st_s; cbn [log]; by rewrite count_cons |].
  assert (Hst0 : ∃ handles,
            st0 = {| ui := ui st_s; log := (handles ≫= turn) ++ log st_s |}).
  { apply while_not_done_log in Ew as (handles & -> & _). by exists handles. }
  destruct Hst0 as (handles & Hst0).
  (* every promise is fulfilled *)
  destruct (Promise_all (promise_of w <$> g :: gs)) as [e|assets] eqn:Ea.
  { apply Promise_all_rejected in Ea as (p & Hp & Hstate & _).
    apply list_elem_of_fmap in Hp as (r & -> & Hr).
    destruct (Hall r Hr). unfold rejected. by rewrite Hstate. }
  assert (Hfirst : head assets = Some (bloblToBase64 body)).
  { apply Promise_all_fulfilled in Ea. apply Forall2_fmap_l in Ea.
    inversion Ea as [|? a ? rest Hga _]; subst. simpl.
    unfold compose, promise_of, read_response in Hga.
    rewrite Hg in Hga. simpl in Hga.
    rewrite Hf, Hb in Hga. destruct (ok res); simpl in Hga; [| done].
    by injection Hga as <-. }
  destruct assets as [|videoSrc rest]; [done |]. injection Hfirst as ->.
  assert (E : generateVideo w fuel prompt aspectRatio image 1 st =
              (Normal (bloblToBase64 body :: rest),
               {| ui := ui st0; log := requests w (g :: gs) ++ log st0 |})).
  { rewrite generateVideo_stages, bind_run, terminal_operation_run.
    fold params. rewrite Es. fold st_s. rewrite Ew.
    by rewrite (collect_run _ _ g gs), Ea. }
  assert (Hfetched : count is_Fetched (requests w (g :: gs))
                     = length (g :: gs)).
  { apply requests_all. intros r Hr. pose proof (Hall r Hr) as Hnot.
    destruct (request_url w r) as [e|request'] eqn:Hreq; [| by eexists].
    destruct Hnot. unfold rejected, promise_of. by rewrite Hreq. }
  pose proof (requests_fetch_events w (g :: gs)) as Hreqs.
  pose proof (turns_polling_events handles) as Hturns.
  eexists _, _. split; [eapply handleGenerateNewVideo_success, E |].
  subst st0 st_s. cbn [ui log videos succeeded started_generate]. split_and!.
  - done.
  - cbn [id generated_video]. f_equal.
    rewrite !count_app, count_cons. cbn [is_DrewUUID].
    rewrite (count_none is_DrewUUID fetch_event) by (done || by intros []).
    rewrite (count_none is_DrewUUID polling_event) by (done || by intros []).
    done.
  - reflexivity.
  - intros Htype. cbn [videoUrl generated_video].
    by rewrite bloblToBase64_payload.
  - cbn [log ui] in Hq. rewrite count_cons, count_app. cbn [is_Queried].
    rewrite (count_none is_Queried fetch_event) by (done || by intros []).
    lia.
  - rewrite count_cons. cbn [is_Fetched]. rewrite !count_app, Hfetched.
    rewrite count_cons. cbn [is_Fetched].
    rewrite (count_none is_Fetched polling_event) by (done || by intros []).
    lia.
Qed.

(** The promise of a callback that made its request settles after the
    turn in which [map] ran the callback. *)
Lemma read_response_later answer :
  earlier {| task := 0; tick := 0 |} (settled_at (read_response answer))
  = true.
Proof.
  apply earlier_true. unfold read_response. cbn [settled_at].
  destruct (state answer) as [e|res]; [simpl; lia |].
  destruct (negb (ok res)); [simpl; lia |].
  destruct (state (blob res)); simpl; lia.
Qed.

(** Of the promises [Promise.all] is given, one that was rejected when
    [map] returned it wins over those before it that were not. *)
Lemma first_rejection_at_once {A} (before : list (Promise A)) p rest e :
  settled_at p = {| task := 0; tick := 0 |} ->
  state p = inl e ->
  Forall (λ q, earlier {| task := 0; tick := 0 |} (settled_at q) = true)
    before ->
  first_rejection (before ++ p :: rest)
    = Some ({| task := 0; tick := 0 |}, e).
Proof.
  intros Hat Hp. induction 1 as [|q before Hq _ IH].
  - simpl. rewrite Hp, Hat.
    destruct (first_rejection rest) as [[t e']|]; [| done].
    destruct (earlier t _) eqn:Ht; [| done].
    apply earlier_true in Ht. simpl in Ht. lia.
  - cbn [app first_rejection]. rewrite IH.
    destruct (state q); [| done]. by rewrite Hq.
Qed.

(** X19. A reference that cannot be requested, because its [video] is
    missing or its URI is malformed, decides the run when every reference
    before it can be requested: the pipeline throws what the callback
    threw for it, whatever the network answers to the requests of the
    others, even with a promise that was rejected when [fetch] returned
    it; and these requests are made all the same. *)
Theorem X19_throw_before_the_request_wins operation g gs st front r back e :
  assetReferences operation = g :: gs ->
  g :: gs = front ++ r :: back ->
  Forall (λ q, ∃ request, request_url w q = inr request) front ->
  request_url w r = inl e ->
  ∃ st1,
    collect w operation st = (Throw e, st1) ∧
    log st1 = requests w (g :: gs) ++ log st ∧
    count is_Fetched (requests w front) = length front ∧
    (video r = None -> ∃ message, e = Js.TypeError message).
Proof.
  intros Hrefs Hsplit Hfront Hr.
  rewrite (collect_run w operation g gs st Hrefs).
  assert (Ha : Promise_all (promise_of w <$> g :: gs) = inl e).
  { unfold Promise_all. rewrite Hsplit, fmap_app, fmap_cons.
    rewrite (first_rejection_at_once _ _ _ e); [done | | |].
    - unfold promise_of. by rewrite Hr.
    - unfold promise_of. by rewrite Hr.
    - apply Forall_fmap. eapply Forall_impl; [exact Hfront |].
      intros q [request Hq]. simpl. unfold promise_of. rewrite Hq.
      apply read_response_later. }
  rewrite Ha. eexists. split; [reflexivity |]. cbn [log].
  split_and!; [done | |].
  - apply requests_all. intros q Hq. rewrite Forall_forall in Hfront.
    by apply Hfront.
  - intros Hvideo. unfold request_url in Hr. rewrite Hvideo in Hr.
    injection Hr as <-. by eexists.
Qed.

End Deliveries.

(** ** The entries the handlers build *)

Lemma length_append s1 s2 :
  String.length (s1 +:+ s2) = String.length s1 + String.length s2.
Proof. induction s1; [done |]. rewrite append_cons. simpl. by f_equal. Qed.

Lemma append_empty s : s +:+ EmptyString = s.
Proof. induction s; [done |]. rewrite append_cons. by f_equal. Qed.

Lemma length_substring0 n s :
  String.length (String.substring 0 n s) = n `min` String.length s.
Proof.
  revert n. induction s as [|a s IH]; intros [|n]; simpl; try done.
  by rewrite IH.
Qed.

Lemma substring0_all n s :
  String.length s ≤ n -> String.substring 0 n s = s.
Proof.
  revert n. induction s as [|a s IH]; intros [|n]; simpl; try done; try lia.
  intros Hn. rewrite IH; [done | lia].
Qed.

Section Entries.
Context (w : World) (fuel : nat).

(** The request a remix submits, whatever becomes of the run. *)
Lemma handleSaveEdit_submits originalVideo st :
  ∃ later,
    log (App.handleSaveEdit w fuel originalVideo st).2
      = later ++
        Submitted (generateVideos_params (description originalVideo)
                     Landscape None 1) :: log st.
Proof.
  rewrite handleSaveEdit_run.
  destruct (generateVideo_store w fuel (description originalVideo) Landscape
              None 1 {| ui := started_remix (ui st); log := log st |})
    as (later & _ & E).
  specialize (E (started_remix (ui st))). simpl in E. rewrite E.
  destruct (generateVideo _ _ _ _ _ _ _) as [[[|videoSrc rest]|e|] st1];
    simpl; try by exists later.
  by exists (DrewUUID :: later).
Qed.

(** X9. The title of a generated entry is bounded: it is the prefix
    [Generated: ] and the whole prompt when the prompt has at most thirty
    code units, and otherwise the prefix, the first thirty code units of
    the prompt and three dots: never more than forty-four code units,
    while the description keeps the prompt whole. *)
Theorem X9_generated_title_is_bounded
    prompt aspectRatio image st videoSrc rest st1 :
  generateVideo w fuel prompt aspectRatio image 1 st
    = (Normal (videoSrc :: rest), st1) ->
  ∃ newVideo st2,
    App.handleGenerateNewVideo w fuel prompt aspectRatio image st
      = (Normal tt, st2) ∧
    videos (ui st2) = newVideo :: videos (ui st) ∧
    String.length (title newVideo) ≤ 44 ∧
    String.length (description newVideo) = String.length prompt ∧
    (String.length prompt ≤ 30 ->
     title newVideo = "Generated: " +:+ prompt) ∧
    (30 < String.length prompt ->
     title newVideo = "Generated: " +:+ String.substring 0 30 prompt +:+ "..." ∧
     String.length (title newVideo) = 44).
Proof.
  intros E. eexists _, _.
  split; [eapply handleGenerateNewVideo_success, E |].
  cbn [ui videos succeeded]. split_and!; try done;
    unfold generated_video, Js.substring0; cbn [title description].
  - rewrite !length_append, length_substring0.
    case_bool_decide; cbn [String.length]; lia.
  - intros Hle. rewrite bool_decide_false by lia.
    by rewrite substring0_all, append_empty.
  - intros Hlt. rewrite bool_decide_true by done. split; [done |].
    rewrite !length_append, length_substring0. cbn [String.length]. lia.
Qed.

(** X10. A remix adds eleven code units to the title of its original and
    keeps its description, so that a remix of the remix submits the very
    request the remix submitted, under a title that has grown again. *)
Theorem X10_remix_of_a_remix originalVideo st videoSrc rest st1 :
  generateVideo w fuel (description originalVideo) Landscape None 1 st
    = (Normal (videoSrc :: rest), st1) ->
  ∃ remix st2,
    App.handleSaveEdit w fuel originalVideo st = (Normal tt, st2) ∧
    videos (ui st2) = remix :: videos (ui st) ∧
    String.length (title remix) = String.length (title originalVideo) + 11 ∧
    description remix = description originalVideo ∧
    (∀ st', ∃ later,
       log (App.handleSaveEdit w fuel remix st').2
         = later ++
           Submitted (generateVideos_params (description originalVideo)
                        Landscape None 1) :: log st') ∧
    (∀ st' videoSrc' rest' st1',
       generateVideo w fuel (description originalVideo) Landscape None 1 st'
         = (Normal (videoSrc' :: rest'), st1') ->
       ∃ again st2',
         App.handleSaveEdit w fuel remix st' = (Normal tt, st2') ∧
         videos (ui st2') = again :: videos (ui st') ∧
         String.length (title again)
           = String.length (title originalVideo) + 22).
Proof.
  intros E. eexists _, _.
  split; [eapply handleSaveEdit_success, E |].
  cbn [ui videos succeeded]. split_and!; try done.
  - unfold remix_video. cbn [title]. rewrite !length_append. unfold Js.dquote.
    simpl. lia.
  - intros st'.
    exact (handleSaveEdit_submits (remix_video _ originalVideo videoSrc) st').
  - intros st' videoSrc' rest' st1' E'. eexists _, _.
    split; [exact (handleSaveEdit_success w fuel
                     (remix_video _ originalVideo videoSrc) _ _ _ _ E') |].
    cbn [ui videos succeeded]. split; [done |].
    unfold remix_video. cbn [title]. rewrite !length_append. unfold Js.dquote.
    simpl. lia.
Qed.

(** X14. While a handler waits for the pipeline, the application shows the
    progress page with the message of the handler and nothing else: the
    player and the error overlay are hidden, the gallery is what it was,
    and the loop has spent every turn it was given on a status query. *)
Theorem X14_waiting_run_shows_progress st :
  (∀ prompt aspectRatio image st2,
     App.handleGenerateNewVideo w fuel prompt aspectRatio image st
       = (Pending, st2) ->
     App.render (ui st2)
       = {| App.page := App.SavingProgress "Creating your video...";
            App.player := None;
            App.errorModal := None |} ∧
     videos (ui st2) = videos (ui st) ∧
     count is_Queried (log st2) = count is_Queried (log st) + fuel ∧
     count is_Fetched (log st2) = count is_Fetched (log st)) ∧
  (∀ originalVideo st2,
     App.handleSaveEdit w fuel originalVideo st = (Pending, st2) ->
     App.render (ui st2)
       = {| App.page := App.SavingProgress "Creating your remix...";
            App.player := None;
            App.errorModal := None |} ∧
     videos (ui st2) = videos (ui st) ∧
     count is_Queried (log st2) = count is_Queried (log st) + fuel ∧
     count is_Fetched (log st2) = count is_Fetched (log st)).
Proof.
  assert (Hpipe : ∀ prompt aspectRatio image st0 st2,
            generateVideo w fuel prompt aspectRatio image 1 st0
              = (Pending, st2) ->
            count is_Queried (log st2) = count is_Queried (log st0) + fuel ∧
            count is_Fetched (log st2) = count is_Fetched (log st0)).
  { intros prompt aspectRatio image st0 st2.
    rewrite generateVideo_stages, bind_run.
    set (params := generateVideos_params _ _ _ _).
    pose proof (only_calls_count _ is_Fetched _ st0
                  (terminal_operation_only_calls w fuel params)) as Hc.
    destruct (terminal_operation w fuel params st0)
      as [[operation|e|] st1] eqn:Et.
    - destruct (assetReferences operation) as [|g gs] eqn:Hrefs.
      + by rewrite collect_empty.
      + rewrite (collect_run _ _ g gs) by done. by destruct (Promise_all _).
    - done.
    - intros [= <-]. split; [| apply Hc; by intros e' [? _]].
      rewrite terminal_operation_run in Et.
      destruct (generateVideos w _ params) as [e|operation0]; [done |].
      apply while_not_done_sound in Et as (k & Hk & _ & ->).
      cbn [log] in Hk. by rewrite count_cons in Hk. }
  split.
  - intros prompt aspectRatio image st2 E.
    split; [by eapply pending_run_shows_progress |].
    rewrite handleGenerateNewVideo_run in E.
    destruct (generateVideo _ _ _ _ _ _ _) as [[[|videoSrc rest]|e|] st1] eqn:Eg;
      try discriminate E.
    injection E as <-.
    destruct (generateVideo_any_ui _ _ _ _ _ _ _ _ _ Eg) as [-> _].
    split; [done |]. by apply Hpipe in Eg.
  - intros originalVideo st2 E.
    split; [by eapply pending_run_shows_progress |].
    rewrite handleSaveEdit_run in E.
    destruct (generateVideo _ _ _ _ _ _ _) as [[[|videoSrc rest]|e|] st1] eqn:Eg;
      try discriminate E.
    injection E as <-.
    destruct (generateVideo_any_ui _ _ _ _ _ _ _ _ _ Eg) as [-> _].
    split; [done |]. by apply Hpipe in Eg.
Qed.

End Entries.

(** ** The pages and the gallery along a session *)

(** What the page offers, as a test, is among what [offered] lists. *)
Lemma enabled_offered w fuel s a :
  enabled s a = true -> offered s (perform w fuel a).
Proof.
  unfold enabled. destruct a; simpl;
    destruct (App.page (App.render s)) eqn:Hpage; try done; intros Hen;
    try (apply bool_decide_eq_true in Hen as [x Hx]);
    econstructor; eassumption.
Qed.

(** In a state the application reaches, the progress page is over, and
    the editor is never open together with the player. *)
Lemma reachable_flags s :
  reachable s ->
  isSaving s = false ∧ (is_Some (editingVideo s) -> playingVideo s = None).
Proof.
  induction 1 as [|s handler log s' log' Hs [IHsaving IH] Hoffer Hrun];
    [split; [done | by intros []] |].
  pose proof (reachable_form_alone s Hs) as Hform.
  destruct Hoffer as [Hp|video Hp|Hp|w' fuel' form Hp|video Hp
                     |w' fuel' video originalVideo Hp|video Hp|video video' Hp
                     |message Hp];
    unfold App.render in Hp; rewrite IHsaving in Hp; simpl in Hp.
  - injection Hrun as <- _. simpl. split; [done | by intros []].
  - injection Hrun as <- _. simpl. split; [done |].
    destruct (isGeneratingNewVideo s); [done |].
    destruct (editingVideo s); [done | by intros []].
  - injection Hrun as <- _. by simpl.
  - unfold App.GenerateVideoPage_generate, GenerateVideoPage.handleGenerate
      in Hrun.
    destruct (isGeneratingNewVideo s) eqn:Hgen;
      [| by destruct (editingVideo s)].
    destruct (Hform eq_refl) as [Hedit Hplay].
    destruct (Js.truthy_string _).
    + rewrite handleGenerateNewVideo_run in Hrun.
      destruct (generateVideo _ _ _ _ _ _ _)
        as [[[|videoSrc rest]|e|] st1] eqn:E; try discriminate Hrun;
        apply generateVideo_any_ui in E as [E _]; simpl in E;
        injection Hrun as <- _; rewrite E; simpl; rewrite Hedit;
        (split; [done | by intros []]).
    + injection Hrun as <- _. auto.
  - injection Hrun as <- _. simpl. split; [done | by intros []].
  - rewrite handleSaveEdit_run in Hrun.
    destruct (generateVideo _ _ _ _ _ _ _)
      as [[[|videoSrc rest]|e|] st1] eqn:E; try discriminate Hrun;
      apply generateVideo_any_ui in E as [E _]; simpl in E;
      injection Hrun as <- _; rewrite E; simpl;
      (split; [done | by intros []]).
  - injection Hrun as <- _. by simpl.
  - injection Hrun as <- _. by simpl.
  - injection Hrun as <- _. by simpl.
Qed.

(** X11. In every state the application reaches once a handler is over,
    the progress page is not shown and the player overlay is shown over the
    grid only: neither form is ever rendered with the player on it, and the
    two forms are never open together. *)
Theorem X11_player_only_over_the_grid s :
  reachable s ->
  (∀ message, App.page (App.render s) ≠ App.SavingProgress message) ∧
  (∀ video, App.player (App.render s) = Some video ->
            App.page (App.render s) = App.Grid) ∧
  (isGeneratingNewVideo s = true -> editingVideo s = None) ∧
  (∀ video, App.page (App.render s) = App.EditForm video ->
            editingVideo s = Some video ∧ isGeneratingNewVideo s = false).
Proof.
  intros Hs. destruct (reachable_flags s Hs) as [Hsaving Hedit].
  pose proof (reachable_form_alone s Hs) as Hform.
  unfold App.render. rewrite Hsaving. simpl. split_and!.
  - intros message. by repeat case_match.
  - intros video Hplay. destruct (isGeneratingNewVideo s).
    + destruct Hform as [_ Hnone]; [done |]. by rewrite Hnone in Hplay.
    + destruct (editingVideo s) as [v|]; [| done].
      rewrite Hedit in Hplay; [done | by eexists].
  - intros Hgen. by destruct Hform.
  - intros video. destruct (isGeneratingNewVideo s); [done |].
    destruct (editingVideo s); [| done]. by intros [= ->].
Qed.

(** One action of the user, run to its end, leaves the gallery as it was
    or with one more entry in front. *)
Lemma perform_gallery w fuel a st st' :
  perform w fuel a st = (Normal tt, st') ->
  videos (ui st') = videos (ui st) ∨
  ∃ newVideo,
    videos (ui st') = newVideo :: videos (ui st) ∧ generates a = true.
Proof.
  destruct a; simpl; try (intros [= <-]; by left).
  - unfold App.GenerateVideoPage_generate, GenerateVideoPage.handleGenerate.
    destruct (Js.truthy_string _); [| intros [= <-]; by left].
    rewrite handleGenerateNewVideo_run.
    destruct (generateVideo _ _ _ _ _ _ _)
      as [[[|videoSrc rest]|e|] st1] eqn:E; intros [= <-];
      apply generateVideo_any_ui in E as [E _]; simpl in *; rewrite E;
      [by left | right; by eexists | by left].
  - rewrite handleSaveEdit_run.
    destruct (generateVideo _ _ _ _ _ _ _)
      as [[[|videoSrc rest]|e|] st1] eqn:E; intros [= <-];
      apply generateVideo_any_ui in E as [E _]; simpl in *; rewrite E;
      [by left | right; by eexists | by left].
Qed.

(** X12. No action of the user removes, replaces or reorders an entry of
    the gallery: after any session the gallery is the gallery before it,
    behind the entries the session added, of which there are at most as
    many as the session has generations and remixes. So a grid that shows
    the placeholder after a session showed it before, and the session
    added nothing. *)
Theorem X12_gallery_only_grows w fuel actions : ∀ st st',
  session w fuel actions st = Some st' ->
  ∃ added,
    videos (ui st') = added ++ videos (ui st) ∧
    length added ≤ length (filter (λ a, generates a = true) actions) ∧
    (VideoGrid.render (videos (ui st')) = VideoGrid.Placeholder ->
     added = [] ∧
     VideoGrid.render (videos (ui st)) = VideoGrid.Placeholder).
Proof.
  assert (Hgrows : ∀ st st',
            session w fuel actions st = Some st' ->
            ∃ added,
              videos (ui st') = added ++ videos (ui st) ∧
              length added
                ≤ length (filter (λ a, generates a = true) actions)).
  { induction actions as [|a actions IH]; intros st st'; simpl.
    - intros [= <-]. by exists [].
    - destruct (enabled (ui st) a); [| done].
      destruct (perform w fuel a st) as [[[]|e|] st1] eqn:E; try done.
      intros Hrest. apply IH in Hrest as (added & -> & Hlen).
      apply perform_gallery in E as [->|(newVideo & -> & Ha)].
      + exists added. split; [done |].
        rewrite filter_cons. case_decide; simpl; lia.
      + exists (added ++ [newVideo]). rewrite <- app_assoc. split; [done |].
        rewrite filter_cons, decide_True by done.
        rewrite length_app. simpl. lia. }
  intros st st' Hsession.
  destruct (Hgrows _ _ Hsession) as (added & Hvideos & Hlen).
  exists added. split_and!; try done.
  unfold VideoGrid.render. rewrite Hvideos, length_app.
  case_bool_decide as Hnone; [| done]. intros _.
  assert (length added = 0) as Hadded%nil_length_inv by lia.
  split; [done |]. rewrite bool_decide_true; [done | lia].
Qed.

(** X13. On the grid, opening the editor and cancelling it, and opening
    the generation form and cancelling it, both come to closing the player:
    the page is the grid again without the player, and the gallery, the
    error and the log are what they were. In between, the editor and the
    generation form are shown without the player. *)
Theorem X13_open_and_cancel_closes_the_player st :
  App.page (App.render (ui st)) = App.Grid ->
  (∀ video,
     (App.handleStartEdit video;; App.handleCancelEdit) st
       = App.handleClosePlayer st) ∧
  (App.handleStartGenerate;; App.handleCancelGenerate) st
    = App.handleClosePlayer st ∧
  (∀ video,
     App.page (App.render (ui (App.handleStartEdit video st).2))
       = App.EditForm video ∧
     App.player (App.render (ui (App.handleStartEdit video st).2)) = None) ∧
  App.page (App.render (ui (App.handleStartGenerate st).2))
    = App.GenerateForm ∧
  App.player (App.render (ui (App.handleStartGenerate st).2)) = None ∧
  App.page (App.render (ui (App.handleClosePlayer st).2)) = App.Grid ∧
  App.player (App.render (ui (App.handleClosePlayer st).2)) = None ∧
  videos (ui (App.handleClosePlayer st).2) = videos (ui st) ∧
  generationError (ui (App.handleClosePlayer st).2)
    = generationError (ui st) ∧
  log (App.handleClosePlayer st).2 = log st.
Proof.
  destruct st as [s log]. unfold App.render. simpl.
  destruct (isSaving s) eqn:Hsaving; [done |].
  destruct (isGeneratingNewVideo s) eqn:Hgen; [done |].
  destruct (editingVideo s) eqn:Hedit; [done |]. intros _.
  split_and!; try done.
  - intros video. cbv [App.handleStartEdit App.handleCancelEdit
      App.handleClosePlayer App.setPlayingVideo App.setEditingVideo update
      mbind Async_bind]. simpl. by rewrite Hedit.
  - cbv [App.handleStartGenerate App.handleCancelGenerate
      App.handleClosePlayer App.setPlayingVideo App.setEditingVideo
      App.setIsGeneratingNewVideo update mbind Async_bind]. simpl.
    by rewrite Hedit, Hgen.
Qed.

Lemma perform_ids_drawn w fuel a st st' :
  ids_drawn w st ->
  perform w fuel a st = (Normal tt, st') ->
  ids_drawn w st'.
Proof.
  intros (draws & Hids & Hnodup & Hbound).
  assert (Hsame : ∀ st1 : Store,
            videos (ui st1) = videos (ui st) ->
            count is_DrewUUID (log st1) = count is_DrewUUID (log st) ->
            ids_drawn w st1).
  { intros st1 Hv Hc. exists draws. by rewrite Hv, Hc. }
  assert (Hnew : ∀ (st1 : Store) newVideo,
            videos (ui st1) = newVideo :: videos (ui st) ->
            id newVideo = randomUUID w (count is_DrewUUID (log st)) ->
            count is_DrewUUID (log st1) = S (count is_DrewUUID (log st)) ->
            ids_drawn w st1).
  { intros st1 newVideo Hv Hid Hc.
    exists (count is_DrewUUID (log st) :: draws). rewrite Hv, Hc. split_and!.
    - by rewrite !fmap_cons, Hid, Hids.
    - constructor; [| done]. intros Hin.
      rewrite Forall_forall in Hbound. specialize (Hbound _ Hin). lia.
    - constructor; [lia |]. eapply Forall_impl; [done |]. simpl. lia. }
  assert (Hpipe : ∀ prompt aspectRatio image (u : AppState) c st1,
            generateVideo w fuel prompt aspectRatio image 1
              {| ui := u; log := log st |} = (c, st1) ->
            ui st1 = u ∧
            count is_DrewUUID (log st1) = count is_DrewUUID (log st)).
  { intros prompt aspectRatio image u c st1 E.
    split; [by apply generateVideo_any_ui in E as [-> _] |].
    pose proof (only_calls_count pipeline_event is_DrewUUID _
                  {| ui := u; log := log st |}
                  (generateVideo_only_calls w fuel prompt aspectRatio image 1))
      as Hc.
    rewrite E in Hc. by apply Hc. }
  destruct a; simpl; try (intros [= <-]; by apply Hsame).
  - unfold App.GenerateVideoPage_generate, GenerateVideoPage.handleGenerate.
    destruct (Js.truthy_string _); [| intros [= <-]; by apply Hsame].
    rewrite handleGenerateNewVideo_run.
    destruct (generateVideo _ _ _ _ _ _ _)
      as [[[|videoSrc rest]|e|] st1] eqn:E; intros [= <-];
      apply Hpipe in E as [E Hc].
    + apply Hsame; simpl; by rewrite ?E.
    + eapply Hnew; simpl; rewrite ?E, ?count_cons, ?Hc; done.
    + apply Hsame; simpl; by rewrite ?E.
  - rewrite handleSaveEdit_run.
    destruct (generateVideo _ _ _ _ _ _ _)
      as [[[|videoSrc rest]|e|] st1] eqn:E; intros [= <-];
      apply Hpipe in E as [E Hc].
    + apply Hsame; simpl; by rewrite ?E.
    + eapply Hnew; simpl; rewrite ?E, ?count_cons, ?Hc; done.
    + apply Hsame; simpl; by rewrite ?E.
Qed.

Lemma session_ids_drawn w fuel actions : ∀ st st',
  ids_drawn w st -> session w fuel actions st = Some st' -> ids_drawn w st'.
Proof.
  induction actions as [|a actions IH]; intros st st' Hst; simpl.
  - by intros [= <-].
  - destruct (enabled (ui st) a); [| done].
    destruct (perform w fuel a st) as [[[]|e|] st1] eqn:E; try done.
    apply IH. by eapply perform_ids_drawn.
Qed.

(** X15. In a world that never draws the same identifier twice, the
    entries of the gallery have identifiers that differ from one another
    after any session that starts with the application, so that the cards
    of the grid, one per entry and in the order of the gallery, have keys
    that differ from one another. *)
Theorem X15_gallery_keys_are_distinct w fuel actions st' :
  Inj (=) (=) (randomUUID w) ->
  session w fuel actions {| ui := App.initial; log := [] |} = Some st' ->
  NoDup (id <$> videos (ui st')) ∧
  ∀ cards,
    VideoGrid.render (videos (ui st')) = VideoGrid.Cards cards ->
    NoDup cards.*1 ∧ cards.*2 = videos (ui st').
Proof.
  intros Hinj Hsession.
  assert (Hids : NoDup (id <$> videos (ui st'))).
  { eapply session_ids_drawn in Hsession as (draws & -> & Hnodup & _).
    - by apply NoDup_fmap_2.
    - exists []. by split_and!; [| constructor | constructor]. }
  split; [done |]. intros cards. unfold VideoGrid.render.
  case_bool_decide; [done |]. intros [= <-].
  rewrite <- !list_fmap_compose. split; [done |].
  apply list_fmap_id.
Qed.

(** ** The form and the request *)

Section FormRequests.
Context (w : World) (fuel : nat).

(** The request the handler of the form submits, whatever becomes of the
    run. *)
Lemma handleGenerateNewVideo_submits prompt aspectRatio image st :
  ∃ later,
    log (App.handleGenerateNewVideo w fuel prompt aspectRatio image st).2
      = later ++
        Submitted (generateVideos_params prompt aspectRatio image 1) :: log st ∧
    Forall (λ e, is_Submitted e = false) later.
Proof.
  rewrite handleGenerateNewVideo_run.
  destruct (generateVideo_store w fuel prompt aspectRatio image 1
              {| ui := started_generate (ui st); log := log st |})
    as (later & F & E).
  specialize (E (started_generate (ui st))). simpl in E. rewrite E.
  destruct (generateVideo _ _ _ _ _ _ _) as [[[|videoSrc rest]|e|] st1];
    simpl; try by exists later.
  exists (DrewUUID :: later). by split; [| constructor].
Qed.

(** X16. A form with a prompt that is not blank submits one request and
    no more: for one video, with the prompt as typed, the aspect ratio
    the form holds, and of the image the form holds the encoded bytes and
    the media type only (the preview stays in the form), or no image
    property when it holds none. *)
Theorem X16_form_submits_one_request form st :
  Js.trim (GenerateVideoPage.prompt form) ≠ EmptyString ->
  ∃ params later,
    log (App.GenerateVideoPage_generate w fuel form st).2
      = later ++ Submitted params :: log st ∧
    Forall (λ e, is_Submitted e = false) later ∧
    params !! "model" = Some (Js.Str "veo-2.0-generate-001") ∧
    params !! "prompt" = Some (Js.Str (GenerateVideoPage.prompt form)) ∧
    params !! "config"
      = Some (Js.Obj
                {[ "numberOfVideos" := Js.Num 1;
                   "aspectRatio" :=
                     Js.Str (aspectRatio_string
                               (GenerateVideoPage.aspectRatio form)) ]}) ∧
    params !! "image"
      = (λ image,
           Js.Obj {[ "imageBytes" := Js.Str (GenerateVideoPage.base64 image);
                     "mimeType" := Js.Str (GenerateVideoPage.mimeType image) ]})
          <$> GenerateVideoPage.image form ∧
    dom params ⊆ {[ "model"; "prompt"; "image"; "config" ]}.
Proof.
  intros Hprompt.
  unfold App.GenerateVideoPage_generate, GenerateVideoPage.handleGenerate.
  destruct (Js.trim (GenerateVideoPage.prompt form)) eqn:Htrim; [done |].
  simpl.
  destruct (handleGenerateNewVideo_submits (GenerateVideoPage.prompt form)
              (GenerateVideoPage.aspectRatio form)
              ((λ image, Build_Image (GenerateVideoPage.base64 image)
                           (GenerateVideoPage.mimeType image))
                 <$> GenerateVideoPage.image form) st) as (later & E & F).
  eexists _, later. split; [exact E |]. split; [done |].
  destruct (GenerateVideoPage.image form) as [image|]; simpl.
  - by split_and!.
  - split_and!; try reflexivity.
    unfold generateVideos_params. simpl.
    rewrite !dom_insert_L, dom_singleton_L. set_unfold. tauto.
Qed.

(** X17. Choosing no file leaves the form as it was. Choosing a file
    always puts an image in the form, with the type of the file and the
    data URL of its content; when the media type of the content has no
    comma, the bytes the form then submits with a prompt that is not blank
    are the base64 encoding of the content of the file, and the preview is
    the media type, the marker and these very bytes. *)
Theorem X17_chosen_file_is_what_is_submitted file form st :
  GenerateVideoPage.handleImageChange None form = form ∧
  (∃ payload,
     GenerateVideoPage.handleImageChange (Some file) form
       = GenerateVideoPage.setImage
           (Some {| GenerateVideoPage.base64 := payload;
                    GenerateVideoPage.mimeType :=
                      GenerateVideoPage.file_type file;
                    GenerateVideoPage.dataUrl :=
                      readAsDataURL (GenerateVideoPage.file_content file) |})
           form) ∧
  (¬ occurs "," (blob_type (GenerateVideoPage.file_content file)) ->
   ∃ image,
     GenerateVideoPage.image
       (GenerateVideoPage.handleImageChange (Some file) form) = Some image ∧
     GenerateVideoPage.base64 image
       = Js.base64 (blob_bytes (GenerateVideoPage.file_content file)) ∧
     GenerateVideoPage.dataUrl image
       = "data:" +:+ blob_type (GenerateVideoPage.file_content file)
         +:+ ";base64," +:+ GenerateVideoPage.base64 image ∧
     (Js.trim (GenerateVideoPage.prompt form) ≠ EmptyString ->
      ∃ params later,
        log (App.GenerateVideoPage_generate w fuel
               (GenerateVideoPage.handleImageChange (Some file) form) st).2
          = later ++ Submitted params :: log st ∧
        params !! "image"
          = Some (Js.Obj
                    {[ "imageBytes" :=
                         Js.Str (Js.base64
                                   (blob_bytes
                                      (GenerateVideoPage.file_content file)));
                       "mimeType" :=
                         Js.Str (GenerateVideoPage.file_type file) ]}))).
Proof.
  split; [done |].
  destruct (data_url_has_payload (GenerateVideoPage.file_content file))
    as [payload Hpayload].
  split.
  { exists payload. unfold GenerateVideoPage.handleImageChange. cbn zeta.
    by rewrite Hpayload. }
  intros Htype.
  pose proof (bloblToBase64_payload _ Htype) as Hb.
  unfold bloblToBase64 in Hb.
  unfold GenerateVideoPage.handleImageChange. cbn zeta. rewrite Hb.
  eexists. split; [reflexivity |]. cbn. split_and!; try done.
  intros Hprompt.
  unfold App.GenerateVideoPage_generate, GenerateVideoPage.handleGenerate.
  cbn [GenerateVideoPage.prompt GenerateVideoPage.setImage
       GenerateVideoPage.aspectRatio GenerateVideoPage.image].
  destruct (Js.trim (GenerateVideoPage.prompt form)) eqn:Htrim; [done |].
  cbn [Js.truthy_string].
  match goal with
  | |- context [App.handleGenerateNewVideo w fuel ?p ?ar ?img st] =>
      destruct (handleGenerateNewVideo_submits p ar img st) as (later & E & _)
  end.
  eexists _, later. split; [exact E |]. reflexivity.
Qed.

End FormRequests.

Lemma edit_fields e form :
  GenerateVideoPage.prompt (GenerateVideoPage.edit e form)
    = default (GenerateVideoPage.prompt form) (typed e) ∧
  GenerateVideoPage.aspectRatio (GenerateVideoPage.edit e form)
    = default (GenerateVideoPage.aspectRatio form) (chosen e) ∧
  (about_image e = false ->
   GenerateVideoPage.image (GenerateVideoPage.edit e form)
     = GenerateVideoPage.image form).
Proof.
  destruct e as [value|value|[file|]|]; try done.
  unfold GenerateVideoPage.edit, GenerateVideoPage.handleImageChange.
  cbn zeta. by destruct (Js.split _ _ !! 1).
Qed.

Lemma last_omap_snoc {A B} (f : A -> option B) l x :
  last (omap f (l ++ [x])) = match f x with
                             | Some y => Some y
                             | None => last (omap f l)
                             end.
Proof.
  rewrite omap_app.
  change (omap f [x]) with (match f x with Some y => [y] | None => [] end).
  destruct (f x); [apply last_snoc | by rewrite app_nil_r].
Qed.

(** X18. The edits of the form do not interfere: after any edits the
    prompt is the last one typed and the aspect ratio the last one chosen,
    or what the form held when none was; and edits that are not about the
    image leave the image alone. A form on which no aspect ratio was ever
    chosen holds 16:9. *)
Theorem X18_last_edit_wins edits form :
  let form' := foldl (λ form e, GenerateVideoPage.edit e form) form edits in
  GenerateVideoPage.prompt form'
    = default (GenerateVideoPage.prompt form) (last (omap typed edits)) ∧
  GenerateVideoPage.aspectRatio form'
    = default (GenerateVideoPage.aspectRatio form)
        (last (omap chosen edits)) ∧
  (Forall (λ e, about_image e = false) edits ->
   GenerateVideoPage.image form' = GenerateVideoPage.image form) ∧
  (omap chosen edits = [] ->
   GenerateVideoPage.aspectRatio
     (foldl (λ form e, GenerateVideoPage.edit e form)
        GenerateVideoPage.initial edits) = Landscape).
Proof.
  assert (Hratio : ∀ form,
            GenerateVideoPage.aspectRatio
              (foldl (λ form e, GenerateVideoPage.edit e form) form edits)
            = default (GenerateVideoPage.aspectRatio form)
                (last (omap chosen edits))).
  { induction edits as [|e edits IH] using rev_ind; intros form0; [done |].
    rewrite foldl_app, last_omap_snoc. cbn [foldl].
    rewrite (proj1 (proj2 (edit_fields e _))), IH. by destruct (chosen e). }
  intros form'. subst form'. split_and!.
  - clear Hratio. revert form. induction edits as [|e edits IH] using rev_ind;
      intros form; [done |].
    rewrite foldl_app, last_omap_snoc. cbn [foldl].
    rewrite (proj1 (edit_fields e _)), IH. by destruct (typed e).
  - apply Hratio.
  - clear Hratio. revert form. induction edits as [|e edits IH] using rev_ind;
      intros form Hall; [done |].
    apply Forall_app in Hall as [Hall He]. apply Forall_inv in He.
    rewrite foldl_app. cbn [foldl].
    rewrite (proj2 (proj2 (edit_fields e _)) He). by apply IH.
  - intros Hnone. by rewrite Hratio, Hnone.
Qed.

(** ** The further properties at work *)

(** A submission that is rejected. *)
Lemma X1_witness :
  generateVideo Incident.refused 5 "A cat in a hat" Landscape None 1
    Scenario.start
  = (Throw (Js.Rejection "quota exceeded"),
     {| ui := App.initial;
        log := [Submitted
                  (generateVideos_params "A cat in a hat" Landscape None 1)]
     |}).
Proof.
  apply (X1_rejected_submission_is_not_retried Incident.refused 5
           "A cat in a hat" Landscape None 1 Scenario.start).
  reflexivity.
Defined.

(** A status query that is rejected after one that was answered. *)
Lemma X2_witness :
  ∃ st1,
    generateVideo Incident.interrupted 5 "A cat in a hat" Landscape None 1
      Scenario.start = (Throw (Js.Rejection "unavailable"), st1) ∧
    count is_Queried (log st1) = count is_Queried (log Scenario.start) + 2 ∧
    count is_Fetched (log st1) = count is_Fetched (log Scenario.start).
Proof.
  apply (X2_rejected_query_is_not_retried Incident.interrupted 5
           "A cat in a hat" Landscape None 1 Scenario.start Scenario.waiting).
  - reflexivity.
  - eapply rejects_later; [reflexivity | reflexivity |].
    apply rejects_now; reflexivity.
  - lia.
Defined.

(** A job that ends at the third status query. *)
Lemma X3_witness :
  ∃ handles,
    log (while_not_done Scenario.delivered 5 Scenario.waiting
           Scenario.start).2 = handles ≫= turn ∧
    length handles = 3 ∧
    last handles = Some Scenario.waiting.
Proof.
  destruct (X3_each_query_follows_a_wait Scenario.delivered 5
              Scenario.waiting Scenario.start)
    as (handles & H1 & _ & H3 & H4 & _).
  assert (H : length handles = 3).
  { change (3 = 0 + length handles) in H4. lia. }
  exists handles. split_and!.
  - rewrite H1. simpl. apply app_nil_r.
  - exact H.
  - apply H3. by intros ->.
Defined.

(** A run that returns one asset. *)
Lemma X4_witness :
  ∃ operation st0,
    terminal_operation Scenario.ready 1
      (generateVideos_params "A cat in a hat" Landscape None 1)
      Scenario.start = (Normal operation, st0) ∧
    Js.truthy_flag (done operation) = true ∧
    length [Some "aGk="] = length (assetReferences operation) ∧
    [Some "aGk="] ≠ [].
Proof.
  apply (X4_assets_match_references Scenario.ready 1 "A cat in a hat"
           Landscape None 1 Scenario.start [Some "aGk="]
           (generateVideo Scenario.ready 1 "A cat in a hat" Landscape None 1
              Scenario.start).2).
  vm_compute. reflexivity.
Defined.

(** A run that fetched one asset. *)
Lemma X5_witness :
  ∃ operation st0,
    terminal_operation Scenario.ready 1
      (generateVideos_params "A cat in a hat" Landscape None 1)
      Scenario.start = (Normal operation, st0) ∧
    Js.truthy_flag (done operation) = true ∧
    assetReferences operation ≠ [] ∧
    count is_Fetched
      (log (generateVideo Scenario.ready 1 "A cat in a hat" Landscape None 1
              Scenario.start).2)
      ≤ count is_Fetched (log Scenario.start)
        + length (assetReferences operation).
Proof.
  apply (X5_no_fetch_before_the_end Scenario.ready 1 "A cat in a hat"
           Landscape None 1 Scenario.start).
  vm_compute. lia.
Defined.

(** Two references, the first without [video]: the second is fetched all
    the same, and the type error is what is thrown. *)
Lemma X6_witness :
  ∃ message st1,
    collect Scenario.ready Incident.headless Scenario.start
      = (Throw (Js.TypeError message), st1) ∧
    Fetched "https://veo.example/2?alt=media&key=KEY" ∈ log st1.
Proof.
  destruct (X6_reference_without_video Scenario.ready Incident.headless
              {| video := None |}
              [ {| video :=
                     Some {| uri := Some "https://veo.example/2?alt=media" |}
                |} ]
              Scenario.start {| video := None |})
    as (e & st1 & H1 & H2 & _ & H4).
  - reflexivity.
  - apply list_elem_of_here.
  - reflexivity.
  - destruct H4 as [message ->].
    + intros r' [->|Hin%list_elem_of_singleton]%elem_of_cons Hsome.
      * by destruct Hsome.
      * subst r'. vm_compute. tauto.
    + exists message, st1. split; [exact H1 |].
      apply (H2 {| video :=
                     Some {| uri := Some "https://veo.example/2?alt=media" |}
                |}).
      * apply list_elem_of_further, list_elem_of_here.
      * reflexivity.
Defined.

(** A body of type [video/mp4], and a body whose type has a comma. *)
Lemma X7_witness :
  "data:video/mp4;base64,"
    +:+ Js.template
          (bloblToBase64 {| blob_type := "video/mp4";
                            blob_bytes := [Byte.x68; Byte.x69] |})
  = readAsDataURL {| blob_type := "video/mp4";
                     blob_bytes := [Byte.x68; Byte.x69] |} ∧
  bloblToBase64 {| blob_type := blob_type Incident.odd; blob_bytes := [] |}
  = bloblToBase64 Incident.odd.
Proof.
  split.
  - apply (X7_encoding_of_a_body {| blob_type := "video/mp4";
                                    blob_bytes := [Byte.x68; Byte.x69] |}).
    reflexivity.
  - apply (X7_encoding_of_a_body Incident.odd).
    apply (bool_decide_unpack _). by vm_compute.
Defined.

(** The job that ends at the third query and delivers one asset. *)
Lemma X8_witness :
  ∃ newVideo st2,
    App.handleGenerateNewVideo Scenario.delivered 5 "A cat in a hat"
      Landscape None Scenario.start = (Normal tt, st2) ∧
    videos (ui st2) = [newVideo] ∧
    id newVideo = "video-0" ∧
    videoUrl newVideo = "data:video/mp4;base64,aGk=" ∧
    count is_Queried (log st2) = 3 ∧
    count is_Fetched (log st2) = 1.
Proof.
  destruct (X8_accepted_job_is_delivered Scenario.delivered 5
              "A cat in a hat" Landscape None Scenario.start Scenario.waiting
              3 (Scenario.finished ["https://veo.example/1?alt=media"])
              {| video :=
                   Some {| uri := Some "https://veo.example/1?alt=media" |} |}
              []
              "https://veo.example/1?alt=media&key=KEY"
              {| ok := true;
                 status := 200;
                 statusText := "OK";
                 blob := Scenario.body |}
              {| blob_type := "video/mp4";
                 blob_bytes := [Byte.x68; Byte.x69] |})
    as (newVideo & st2 & H1 & H2 & H3 & _ & H5 & H6 & H7).
  - reflexivity.
  - repeat (eapply reaches_query; [reflexivity | reflexivity |]).
    by apply reaches_done.
  - lia.
  - reflexivity.
  - intros r ->%list_elem_of_singleton. vm_compute. tauto.
  - reflexivity.
  - reflexivity.
  - reflexivity.
  - exists newVideo, st2.
    split_and!; [exact H1 | exact H2 | exact H3 | | exact H6 | exact H7].
    apply H5. simpl. intros H. by decompose [or] H.
Defined.

(** A prompt of forty-four code units. *)
Lemma X9_witness :
  ∃ newVideo st2,
    App.handleGenerateNewVideo Scenario.ready 1 Incident.long_prompt Portrait
      None Scenario.start = (Normal tt, st2) ∧
    videos (ui st2) = [newVideo] ∧
    title newVideo = "Generated: A dog that chases its own tail..." ∧
    String.length (title newVideo) = 44.
Proof.
  edestruct (X9_generated_title_is_bounded Scenario.ready 1
               Incident.long_prompt Portrait None Scenario.start)
    as (newVideo & st2 & H1 & H2 & _ & _ & _ & H6).
  { vm_compute. reflexivity. }
  destruct H6 as [H6 H7]; [vm_compute; lia |].
  exists newVideo, st2. split_and!; assumption.
Defined.

(** The remix of an entry. *)
Lemma X10_witness :
  ∃ remix st2,
    App.handleSaveEdit Scenario.ready 1 Scenario.cat Scenario.start
      = (Normal tt, st2) ∧
    videos (ui st2) = [remix] ∧
    String.length (title remix) = 36 ∧
    description remix = "A cat in a hat".
Proof.
  edestruct (X10_remix_of_a_remix Scenario.ready 1 Scenario.cat
               Scenario.start)
    as (remix & st2 & H1 & H2 & H3 & H4 & _).
  { vm_compute. reflexivity. }
  exists remix, st2. split_and!; assumption.
Defined.

(** The application after its first generation, where the player is
    open, and with the generation form open. *)
Lemma X11_witness :
  App.player (App.render (ui Incident.playing)) = Some Scenario.cat ∧
  App.page (App.render (ui Incident.playing)) = App.Grid ∧
  App.page (App.render (ui Scenario.at_form)) = App.GenerateForm ∧
  editingVideo (ui Scenario.at_form) = None.
Proof.
  assert (Hform : reachable (ui Scenario.at_form)).
  { eapply (reachable_step App.initial App.handleStartGenerate [] _ []).
    - apply reachable_initial.
    - by apply offer_start_generate.
    - reflexivity. }
  assert (Hplay : reachable (ui Incident.playing)).
  { eapply (reachable_step (ui Scenario.at_form)
              (App.GenerateVideoPage_generate Scenario.ready 1
                 Incident.typed_in) [] (ui Incident.playing)).
    - exact Hform.
    - by apply offer_generate.
    - vm_compute. reflexivity. }
  split_and!; [reflexivity | | reflexivity |].
  - exact (proj1 (proj2 (X11_player_only_over_the_grid _ Hplay))
             Scenario.cat eq_refl).
  - exact (proj1 (proj2 (proj2 (X11_player_only_over_the_grid _ Hform)))
             eq_refl).
Defined.

(** Two generations in a world that delivers. *)
Lemma X12_witness :
  ∃ st' added,
    session Scenario.ready 1 Incident.two_generations Scenario.start
      = Some st' ∧
    videos (ui st') = added ++ videos (ui Scenario.start) ∧
    length added
      ≤ length (filter (λ a, generates a = true) Incident.two_generations).
Proof.
  destruct (session Scenario.ready 1 Incident.two_generations Scenario.start)
    as [st'|] eqn:E; [| vm_compute in E; discriminate E].
  destruct (X12_gallery_only_grows _ _ _ _ _ E) as (added & H1 & H2 & _).
  exists st', added. split_and!; [reflexivity | exact H1 | exact H2].
Defined.

(** The application after its first generation, where the player is
    open over the grid. *)
Lemma X13_witness :
  playingVideo (ui Incident.playing) = Some Scenario.cat ∧
  (App.handleStartEdit Scenario.cat;; App.handleCancelEdit) Incident.playing
  = App.handleClosePlayer Incident.playing ∧
  (App.handleStartGenerate;; App.handleCancelGenerate) Incident.playing
  = App.handleClosePlayer Incident.playing ∧
  App.player (App.render (ui (App.handleClosePlayer Incident.playing).2))
  = None.
Proof.
  destruct (X13_open_and_cancel_closes_the_player Incident.playing eq_refl)
    as (Hedit & Hgenerate & _ & _ & _ & _ & Hplayer & _).
  split_and!; [reflexivity | exact (Hedit Scenario.cat) | exact Hgenerate
              | exact Hplayer].
Defined.

(** A job that never ends, and a run of two turns. *)
Lemma X14_witness :
  ∃ st2,
    App.handleGenerateNewVideo Incident.endless 2 "A cat in a hat" Landscape
      None Scenario.at_form = (Pending, st2) ∧
    App.render (ui st2)
      = {| App.page := App.SavingProgress "Creating your video...";
           App.player := None;
           App.errorModal := None |} ∧
    count is_Queried (log st2) = count is_Queried (log Scenario.at_form) + 2.
Proof.
  destruct (App.handleGenerateNewVideo Incident.endless 2 "A cat in a hat"
              Landscape None Scenario.at_form) as [c st2] eqn:E.
  assert (E' := E). vm_compute in E'. injection E' as Hc _. subst c.
  destruct (proj1 (X14_waiting_run_shows_progress Incident.endless 2
                     Scenario.at_form) _ _ _ _ E) as (H1 & _ & H3 & _).
  exists st2. split_and!; [reflexivity | exact H1 | exact H3].
Defined.

(** Two generations in a world whose identifiers differ. *)
Lemma X15_witness :
  ∃ st',
    session Scenario.ready 1 Incident.two_generations Scenario.start
      = Some st' ∧
    NoDup (id <$> videos (ui st')).
Proof.
  destruct (session Scenario.ready 1 Incident.two_generations Scenario.start)
    as [st'|] eqn:E; [| vm_compute in E; discriminate E].
  exists st'. split; [reflexivity |].
  apply (X15_gallery_keys_are_distinct Scenario.ready 1
           Incident.two_generations st'); [| exact E].
  intros n m H. simpl in H.
  apply (inj (String.app "video-")) in H. by apply (inj pretty) in H.
Defined.

(** The form with a prompt and no image. *)
Lemma X16_witness :
  ∃ params later,
    log (App.GenerateVideoPage_generate Scenario.ready 1 Incident.typed_in
           Scenario.at_form).2
      = later ++ Submitted params :: log Scenario.at_form ∧
    params !! "prompt" = Some (Js.Str "A cat in a hat") ∧
    params !! "image" = None.
Proof.
  destruct (X16_form_submits_one_request Scenario.ready 1 Incident.typed_in
              Scenario.at_form)
    as (params & later & H1 & _ & _ & H4 & _ & H6 & _).
  { by vm_compute. }
  exists params, later. split_and!; [exact H1 | exact H4 | exact H6].
Defined.

(** The form with a prompt, and a file chosen. *)
Lemma X17_witness :
  ∃ image,
    GenerateVideoPage.image
      (GenerateVideoPage.handleImageChange (Some Incident.photo)
         Incident.typed_in) = Some image ∧
    GenerateVideoPage.base64 image = Js.base64 [Byte.x68; Byte.x69] ∧
    ∃ params later,
      log (App.GenerateVideoPage_generate Scenario.ready 1
             (GenerateVideoPage.handleImageChange (Some Incident.photo)
                Incident.typed_in) Scenario.at_form).2
        = later ++ Submitted params :: log Scenario.at_form ∧
      params !! "image"
        = Some (Js.Obj {[ "imageBytes" :=
                            Js.Str (Js.base64 [Byte.x68; Byte.x69]);
                          "mimeType" := Js.Str "image/png" ]}).
Proof.
  destruct (X17_chosen_file_is_what_is_submitted Scenario.ready 1
              Incident.photo Incident.typed_in Scenario.at_form)
    as (_ & _ & H).
  destruct H as (image & H1 & H2 & _ & H4).
  { simpl. intros H. by decompose [or] H. }
  destruct H4 as (params & later & H5 & H6); [by vm_compute |].
  exists image. split_and!; [exact H1 | exact H2 |].
  exists params, later. split; [exact H5 | exact H6].
Defined.

(** A prompt typed twice with a choice of aspect ratio between. *)
Lemma X18_witness :
  GenerateVideoPage.image
    (foldl (λ form e, GenerateVideoPage.edit e form) Incident.typed_in
       [GenerateVideoPage.TypePrompt "A cat";
        GenerateVideoPage.ChooseAspectRatio Portrait;
        GenerateVideoPage.TypePrompt "A cat in a hat"])
  = GenerateVideoPage.image Incident.typed_in.
Proof.
  apply (X18_last_edit_wins
           [GenerateVideoPage.TypePrompt "A cat";
            GenerateVideoPage.ChooseAspectRatio Portrait;
            GenerateVideoPage.TypePrompt "A cat in a hat"]
           Incident.typed_in).
  by repeat constructor.
Defined.

(** A request that is rejected at once, before a reference without
    [video]: the type error is what is thrown. *)
Lemma X19_witness :
  ∃ st1,
    collect Incident.offline Incident.tailless Scenario.start
      = (Throw (Js.TypeError "generatedVideo.video is undefined"), st1) ∧
    log st1 = [Fetched "https://veo.example/1?alt=media&key=KEY"].
Proof.
  destruct (X19_throw_before_the_request_wins Incident.offline
              Incident.tailless
              {| video :=
                   Some {| uri := Some "https://veo.example/1?alt=media" |} |}
              [ {| video := None |} ]
              Scenario.start
              [ {| video :=
                     Some {| uri := Some "https://veo.example/1?alt=media" |}
                |} ]
              {| video := None |}
              []
              (Js.TypeError "generatedVideo.video is undefined"))
    as (st1 & H1 & H2 & _).
  - reflexivity.
  - reflexivity.
  - constructor; [by eexists | constructor].
  - reflexivity.
  - exists st1. split; [exact H1 | exact H2].
Defined.
